(** * react-native-pie: the geometry and layout of [src/Pie.js]

    The component maps a list of weighted sections and a few geometric
    props to SVG arc paths.  This development embeds the functions of
    [src/Pie.js] and proves (or refutes) the properties its specification
    states about them.

    ** Numbers

    A JavaScript number is modelled by [num]: [NaN], the two infinities and
    the finite values.  Every finite double is a rational, so finite values
    are rationals ([Q]) and the arithmetic on them is exact: the rounding of
    double precision is not modelled, and neither is the sign of zero (the
    source never observes it).  The IEEE rules for [NaN] and the infinities,
    which the source does observe ([isNaN], [||], comparisons), are
    modelled case by case.  Finite results are kept in lowest terms
    ([Qred]), so that equal numbers are equal terms on concrete inputs.

    A decimal literal of the source that is not a double ([359.9], [0.1])
    is taken at the value of the double it denotes, as [Math.PI] is, so
    that a comparison of a double with it gives the source's answer.

    The source rounds where this development computes exactly: the
    product [percentage / 100 * 360], the sums of percentages and of
    angles, [validRadius - 1] and [dividerSize + 2].  An equation between
    computed numbers is the source's own formula, and holds on doubles up
    to the rounding of its operations.  A property that turns on a test a
    rounding could decide otherwise is stated with a margin (the span
    test of [Sections], see [spanTest]) or on inputs on which the source
    computes exactly (a radius of at most 2^53, a divider size that is a
    multiple of 2^-40); module [Double] runs the normalisation of the
    radii on IEEE doubles, where the absorption of [validRadius - 1]
    shows.  [Array(n)] is modelled up to the length limit of the
    language, not up to the memory of an engine; the properties use it for
    lengths of at most 362. *)

From Stdlib Require Import ZArith QArith Qminmax Lqa Lia Bool Arith List String.
From Stdlib Require Import SpecFloat.
From Stdlib Require Qcanon.
Import ListNotations.

Open Scope Q_scope.

(** ** Rational comparisons as booleans *)

Definition Qltb (x y : Q) : bool :=
  match x ?= y with Lt => true | _ => false end.

Definition Qleb (x y : Q) : bool :=
  match x ?= y with Gt => false | _ => true end.

Definition Qeqb (x y : Q) : bool :=
  match x ?= y with Eq => true | _ => false end.

(** ** JavaScript numbers *)

Inductive num : Type :=
| NaN
| PInf            (* Infinity *)
| NInf            (* -Infinity *)
| Fin (q : Q).

Declare Scope num_scope.
Delimit Scope num_scope with num.
Bind Scope num_scope with num.

Coercion Fin : Q >-> num.

Module Num.

Definition fin (q : Q) : num := Fin (Qred q).

(** [isNaN x] on a number. *)
Definition isNaN (x : num) : bool :=
  match x with NaN => true | _ => false end.

(** Truthiness of a number: [0] and [NaN] are falsy. *)
Definition truthy (x : num) : bool :=
  match x with
  | NaN => false
  | Fin q => negb (Qeqb q 0)
  | _ => true
  end.

Definition add (x y : num) : num :=
  match x, y with
  | NaN, _ | _, NaN => NaN
  | PInf, NInf | NInf, PInf => NaN
  | PInf, _ | _, PInf => PInf
  | NInf, _ | _, NInf => NInf
  | Fin a, Fin b => fin (a + b)
  end.

Definition opp (x : num) : num :=
  match x with
  | NaN => NaN
  | PInf => NInf
  | NInf => PInf
  | Fin a => fin (- a)
  end.

Definition sub (x y : num) : num :=
  match x, y with
  | NaN, _ | _, NaN => NaN
  | PInf, PInf | NInf, NInf => NaN
  | PInf, _ | _, NInf => PInf
  | NInf, _ | _, PInf => NInf
  | Fin a, Fin b => fin (a - b)
  end.

(** An infinity of the sign of [q], or [NaN] when [q] is zero. *)
Definition scaled_inf (positive : bool) (q : Q) : num :=
  if Qeqb q 0 then NaN
  else if Bool.eqb positive (Qltb 0 q) then PInf else NInf.

Definition mul (x y : num) : num :=
  match x, y with
  | NaN, _ | _, NaN => NaN
  | PInf, PInf | NInf, NInf => PInf
  | PInf, NInf | NInf, PInf => NInf
  | PInf, Fin q | Fin q, PInf => scaled_inf true q
  | NInf, Fin q | Fin q, NInf => scaled_inf false q
  | Fin a, Fin b => fin (a * b)
  end.

(** Division; a zero divisor counts as [+0]. *)
Definition div (x y : num) : num :=
  match x, y with
  | NaN, _ | _, NaN => NaN
  | (PInf | NInf), (PInf | NInf) => NaN
  | Fin _, (PInf | NInf) => fin 0
  | PInf, Fin b => if Qltb b 0 then NInf else PInf
  | NInf, Fin b => if Qltb b 0 then PInf else NInf
  | Fin a, Fin b =>
      if Qeqb b 0 then scaled_inf true a else fin (a / b)
  end.

(** [x < y]; false as soon as one side is [NaN]. *)
Definition ltb (x y : num) : bool :=
  match x, y with
  | NaN, _ | _, NaN => false
  | _, NInf => false
  | NInf, _ => true
  | PInf, _ => false
  | _, PInf => true
  | Fin a, Fin b => Qltb a b
  end.

(** [x <= y]; false as soon as one side is [NaN]. *)
Definition leb (x y : num) : bool :=
  match x, y with
  | NaN, _ | _, NaN => false
  | NInf, _ => true
  | _, NInf => false
  | _, PInf => true
  | PInf, _ => false
  | Fin a, Fin b => Qleb a b
  end.

Definition gtb (x y : num) : bool := ltb y x.
Definition geb (x y : num) : bool := leb y x.

(** [Math.min(x, y)] and [Math.max(x, y)]: [NaN] when one argument is. *)
Definition min (x y : num) : num :=
  match x, y with
  | NaN, _ | _, NaN => NaN
  | _, _ => if leb x y then x else y
  end.

Definition max (x y : num) : num :=
  match x, y with
  | NaN, _ | _, NaN => NaN
  | _, _ => if leb x y then y else x
  end.

(** [x || d] on numbers. *)
Definition or_else (x d : num) : num := if truthy x then x else d.

(** The finite number [n] has the value [q]. *)
Definition has_value (n : num) (q : Q) : Prop :=
  match n with Fin q' => q' == q | _ => False end.

End Num.

Notation "x + y" := (Num.add x y) : num_scope.
Notation "x - y" := (Num.sub x y) : num_scope.
Notation "x * y" := (Num.mul x y) : num_scope.
Notation "x / y" := (Num.div x y) : num_scope.
Notation "x <? y" := (Num.ltb x y) : num_scope.
Notation "x <=? y" := (Num.leb x y) : num_scope.
Notation "x >? y" := (Num.gtb x y) (at level 70) : num_scope.
Notation "x >=? y" := (Num.geb x y) (at level 70) : num_scope.

(** ** Other JavaScript values

    Section colours, stroke caps and the fields of a section entry are
    arbitrary JavaScript values; the source tests them with [typeof], [!]
    and [||]. *)

Inductive value : Type :=
| VUndefined
| VNull
| VBool (b : bool)
| VNum (n : num)
| VStr (s : string).

Definition truthy (v : value) : bool :=
  match v with
  | VUndefined | VNull => false
  | VBool b => b
  | VNum n => Num.truthy n
  | VStr s => negb (String.eqb s EmptyString)
  end.

(** [v || d] *)
Definition or_else (v d : value) : value := if truthy v then v else d.

(** [v === "..."] against a string literal. *)
Definition is_string (v : value) (lit : string) : bool :=
  match v with VStr s => String.eqb s lit | _ => false end.

(** A numeric prop that may be missing: [None] is [undefined]. *)
Definition prop_or (p : option num) (d : num) : num :=
  match p with Some n => Num.or_else n d | None => d end.

(** What a call can end in: a value, or a thrown error. *)
Inductive completion (A : Type) : Type :=
| Normal (a : A)
| Throw (error : string).
Arguments Normal {A} a.
Arguments Throw {A} error.

(** ** SVG paths

    A path string is represented by its commands: [MoveTo x y] is
    [M x y] and [ArcTo rx ry rot large sweep x y] is
    [A rx ry rot large sweep x y].  The literal ['M 0 0'] is [placeholder]. *)

Inductive command : Type :=
| MoveTo (x y : num)
| ArcTo (rx ry : num) (xAxisRotation : Z) (largeArcFlag sweepFlag : bool)
        (x y : num).

Definition path : Type := list command.

Definition placeholder : path := [MoveTo 0 0].

Definition is_arc (c : command) : bool :=
  match c with ArcTo _ _ _ _ _ _ _ => true | MoveTo _ _ => false end.

(** The number of arc commands of a path. *)
Definition arc_count (p : path) : nat := List.length (filter is_arc p).

Record point : Type := { x : num; y : num }.

(** [Math.PI], the double nearest to pi, as the rational it is. *)
Definition Math_PI : Q := 884279719003555 # 281474976710656.

(** The literals [359.9] and [0.1]: the doubles nearest to them. *)
Definition double_359_9 : Q := 3165713878692659 # 8796093022208.
Definition double_0_1 : Q := 3602879701896397 # 36028797018963968.

Record Dimensions : Type := {
  radius : num;
  innerRadius : num;
  width : num;
  dividerSize : num
}.

(** The props of an [ArcShape] element ([key] is left out: it does not
    reach the drawing). *)
Record ArcProps : Type := {
  dimensions : Dimensions;
  color : value;
  strokeCap : value;
  startAngle : num;
  arcAngle : num;
  isBezian : bool
}.

(** A [<Path .. fill="none"/>] element. *)
Record PathElement : Type := {
  d : path;
  stroke : value;
  strokeWidth : num;
  strokeLinecap : value
}.

(** An entry of the [sections] prop, and an entry that passed the filter. *)
Record PieSection : Type := {
  sec_percentage : value;
  sec_color : value
}.

Record PaintedSection : Type := {
  painted_percentage : num;
  painted_color : value;
  painted_startAngle : num;
  painted_arcAngle : num
}.

(** ** [getArcAngle]  (Pie.js, lines 98-101) *)

Definition getArcAngle (percentage : num) : num :=
  if Num.isNaN percentage || (percentage <? 0)%num then 0
  else Num.min ((percentage / 100) * 360) 360.

(** ** [shouldShowDivider]  (Pie.js, lines 103-104) *)

Definition shouldShowDivider {A} (sections : list A) (dividerSize : num) : bool :=
  Nat.ltb 1 (List.length sections) && negb (Num.isNaN dividerSize)
  && (dividerSize >? 0)%num.

(** ** The section filter  (Pie.js, lines 119-125)

    [validSection s] is [Some (percentage, color)] when the filter keeps
    the entry [s] ([None] is a [null] or [undefined] entry): the entry is
    an object, its percentage has type number, is not [NaN] and is
    positive, and its color is truthy. *)

Definition validSection (section : option PieSection) : option (num * value) :=
  match section with
  | Some {| sec_percentage := VNum percentage; sec_color := color |} =>
      if negb (Num.isNaN percentage) && (percentage >? 0)%num && truthy color
      then Some (percentage, color)
      else None
  | _ => None
  end.

Fixpoint validSections (sections : list (option PieSection)) : list (num * value) :=
  match sections with
  | [] => []
  | section :: rest =>
      match validSection section with
      | Some v => v :: validSections rest
      | None => validSections rest
      end
  end.

(** The whole number of elements [Array(n)] allocates, when it does not
    throw a [RangeError]: [n] is a whole number below 2^32. *)
Definition arrayLength (n : num) : option nat :=
  match n with
  | Fin q =>
      let q := Qred q in
      if (Qden q =? 1)%positive && (0 <=? Qnum q)%Z && (Qnum q <? 2 ^ 32)%Z
      then Some (Z.to_nat (Qnum q))
      else None
  | _ => None
  end.

(** [array.filter(Boolean)] on an array of elements and [null]s. *)
Fixpoint filterBoolean {A} (l : list (option A)) : list A :=
  match l with
  | [] => []
  | Some a :: rest => a :: filterBoolean rest
  | None :: rest => filterBoolean rest
  end.

(** ** [Sections]  (Pie.js, lines 106-166)

    [sectionArcs] is the callback of [validSections.map] run over the
    array: [startValue] is the variable the callback updates, and
    [paintedSections] the array it pushes to.  A [None] in the result is a
    [null] returned by the callback. *)

Fixpoint sectionArcs (dims : Dimensions) (showDividers shouldShowRoundDividers : bool)
    (strokeCapForLargeBands : value) (valid : list (num * value))
    (startValue : num) (paintedSections : list PaintedSection)
  : list (option ArcProps) * list PaintedSection :=
  match valid with
  | [] => ([], paintedSections)
  | (percentage, color) :: rest =>
      let startAngle := ((startValue / 100) * 360)%num in
      let arcAngle := getArcAngle percentage in
      let startValue := (startValue + percentage)%num in
      if (arcAngle <? double_0_1)%num then
        let (elements, painted) :=
          sectionArcs dims showDividers shouldShowRoundDividers
                      strokeCapForLargeBands rest startValue paintedSections in
        (None :: elements, painted)
      else
        let dividerSize := dividerSize dims in
        let arcProps :=
          {| dimensions := dims;
             color := color;
             startAngle :=
               if showDividers then (startAngle + Num.or_else dividerSize 0)%num
               else startAngle;
             arcAngle :=
               if showDividers
               then Num.max (arcAngle - Num.or_else dividerSize 0) double_0_1
               else arcAngle;
             strokeCap := strokeCapForLargeBands;
             isBezian := false |} in
        let paintedSections :=
          if shouldShowRoundDividers
          then paintedSections ++
                 [ {| painted_percentage := percentage;
                      painted_color := color;
                      painted_startAngle := startAngle;
                      painted_arcAngle := arcAngle |} ]
          else paintedSections in
        let (elements, painted) :=
          sectionArcs dims showDividers shouldShowRoundDividers
                      strokeCapForLargeBands rest startValue paintedSections in
        (Some arcProps :: elements, painted)
  end.

(** The result is the array of [ArcShape] elements ([None] for [null])
    together with [paintedSections] as the call leaves it.  A [sections]
    prop that is missing or not an array is [None]. *)
Definition Sections (dims : Dimensions) (paintedSections : list PaintedSection)
    (sections : option (list (option PieSection)))
    (shouldShowRoundDividers : bool) (strokeCapForLargeBands : value)
  : option (list ArcProps) * list PaintedSection :=
  match sections with
  | None => (None, paintedSections)
  | Some sections =>
      if (List.length sections =? 0)%nat then (None, paintedSections)
      else
        let valid := validSections sections in
        if (List.length valid =? 0)%nat then (None, paintedSections)
        else
          let showDividers := shouldShowDivider valid (dividerSize dims) in
          let (elements, painted) :=
            sectionArcs dims showDividers shouldShowRoundDividers
                        strokeCapForLargeBands valid 0 paintedSections in
          (Some (filterBoolean elements), painted)
  end.

(** ** [RoundDividers]  (Pie.js, lines 168-210) *)

Definition num_of_nat (i : nat) : num := Fin (inject_Z (Z.of_nat i)).

(** The two strokes drawn at step [i] of one painted section. *)
Definition dividerStrokes (dims : Dimensions) (backgroundColor : value)
    (section : PaintedSection) (dividerOffSet : num) (i : nat) : list ArcProps :=
  let dividerSize := dividerSize dims in
  let startAngle := painted_startAngle section in
  let arcAngle := painted_arcAngle section in
  [ {| dimensions := dims;
       color := backgroundColor;
       startAngle :=
         (startAngle + arcAngle + dividerSize + num_of_nat i - dividerOffSet)%num;
       arcAngle := 1;
       isBezian := true;
       strokeCap := VStr "butt" |};
    {| dimensions := dims;
       color := painted_color section;
       startAngle :=
         (startAngle + arcAngle - dividerSize + num_of_nat i - dividerOffSet)%num;
       arcAngle := 1;
       isBezian := true;
       strokeCap := VStr "butt" |} ].

(** [paintedSections.flatMap(..)]: [Array(dividerSize + 2)] throws when
    its argument is not an array length. *)
Fixpoint dividerArcs (dims : Dimensions) (backgroundColor : value)
    (dividerOffSet : num) (paintedSections : list PaintedSection)
  : completion (list ArcProps) :=
  match paintedSections with
  | [] => Normal []
  | section :: rest =>
      let here :=
        if negb (truthy (painted_color section))
           || Num.isNaN (painted_startAngle section)
           || Num.isNaN (painted_arcAngle section)
        then Normal []
        else
          match arrayLength (dividerSize dims + 2)%num with
          | None => Throw "RangeError: Invalid array length"
          | Some n =>
              Normal (flat_map (dividerStrokes dims backgroundColor section
                                               dividerOffSet) (seq 0 n))
          end in
      match here with
      | Throw e => Throw e
      | Normal strokes =>
          match dividerArcs dims backgroundColor dividerOffSet rest with
          | Throw e => Throw e
          | Normal others => Normal (strokes ++ others)
          end
      end
  end.

(** The guard of line 179: the dividers are drawn when it holds. *)
Definition roundDividersActive (dims : Dimensions)
    (paintedSections : list PaintedSection) (visible : bool) : bool :=
  Nat.ltb 1 (List.length paintedSections) && visible
  && (dividerSize dims >? 0)%num.

Definition RoundDividers (dims : Dimensions) (paintedSections : list PaintedSection)
    (backgroundColor : value) (visible : bool)
  : completion (option (list ArcProps)) :=
  let dividerOffSet := (Num.or_else (dividerSize dims) 0 * 2 + 6)%num in
  if negb (roundDividersActive dims paintedSections visible) then Normal None
  else
    match dividerArcs dims backgroundColor dividerOffSet paintedSections with
    | Throw e => Throw e
    | Normal arcs => Normal (Some arcs)
    end.

(** ** The props of [Pie] and their normalisation  (Pie.js, lines 250-275)

    The props are those [Pie] receives.  A numeric prop is [None] when it
    is not passed: for [innerRadius] and [dividerSize] the default of
    [Pie.defaultProps] is 0, which is what [||] gives a missing prop as
    well.  The background color and the stroke cap are the values after
    the defaults (["#fff"] and ["butt"]) have been filled in. *)

Record PieProps : Type := {
  prop_sections : option (list (option PieSection));
  prop_radius : option num;
  prop_innerRadius : option num;
  prop_backgroundColor : value;
  prop_strokeCap : value;
  prop_dividerSize : option num;
  prop_showCenterText : bool;
  prop_centerValue : string;
  prop_centerLabel : string
}.

Record TextElement : Type := {
  text_x : num;
  text_y : num;
  text_content : string
}.

(** Lines 262-275 of [Pie]: from the props to [dimensions]. *)
Definition pieDimensions (radius innerRadius dividerSize : option num) : Dimensions :=
  let validRadius := Num.max (prop_or radius 50) 10 in
  let validInnerRadius := Num.max (prop_or innerRadius 0) 0 in
  let validDividerSize := Num.max (prop_or dividerSize 0) 0 in
  let finalInnerRadius := Num.min validInnerRadius (validRadius - 1) in
  let width := (validRadius - finalInnerRadius)%num in
  {| radius := validRadius;
     innerRadius := finalInnerRadius;
     width := width;
     dividerSize := validDividerSize |}.

Section Geometry.

(** [Math.cos] and [Math.sin] are the engine's; nothing is assumed of them. *)
Variables Math_cos Math_sin : num -> num.

(** ** [polarToCartesian]  (Pie.js, lines 5-20); the warning it logs is
    not modelled. *)
Definition polarToCartesian (cx cy r angle : num) : point :=
  if Num.isNaN cx || Num.isNaN cy || Num.isNaN r || Num.isNaN angle
  then {| x := 0; y := 0 |}
  else
    let a := ((angle - 90) * (Math_PI / 180))%num in
    let x := (cx + r * Math_cos a)%num in
    let y := (cy + r * Math_sin a)%num in
    {| x := if Num.isNaN x then 0 else x;
       y := if Num.isNaN y then 0 else y |}.

(** ** [describeArc]  (Pie.js, lines 22-51) *)
Definition describeArc (cx cy r startAngle arcAngle : num) : path :=
  if Num.isNaN cx || Num.isNaN cy || Num.isNaN r
     || Num.isNaN startAngle || Num.isNaN arcAngle
  then placeholder
  else if (arcAngle <=? 0)%num then placeholder
  else if (arcAngle >=? double_359_9)%num then
    let topPoint := polarToCartesian cx cy r 0 in
    let bottomPoint := polarToCartesian cx cy r 180 in
    [ MoveTo (x topPoint) (y topPoint);
      ArcTo r r 0 false true (x bottomPoint) (y bottomPoint);
      ArcTo r r 0 false true (x topPoint) (y topPoint) ]
  else
    let endAngle := (startAngle + arcAngle)%num in
    let start := polarToCartesian cx cy r endAngle in
    let end_ := polarToCartesian cx cy r startAngle in
    let largeArcFlag := (arcAngle >? 180)%num in
    [ MoveTo (x start) (y start);
      ArcTo r r 0 largeArcFlag false (x end_) (y end_) ].

(** ** [ArcShape]  (Pie.js, lines 53-87); [None] is [null]. *)
Definition ArcShape (props : ArcProps) : option PathElement :=
  let dims := dimensions props in
  if negb (Num.truthy (radius dims)) || (radius dims <=? 0)%num then None
  else
    let r := (radius dims - width dims / 2)%num in
    if (r <=? 0)%num then None
    else
      let pathData :=
        describeArc (radius dims) (radius dims) r
                    (Num.or_else (startAngle props) 0)
                    (Num.or_else (arcAngle props) 0) in
      let strokeWidth :=
        if isBezian props then (Num.or_else (arcAngle props) 0 * 5)%num
        else width dims in
      Some {| d := pathData;
              stroke := or_else (color props) (VStr "#000");
              strokeWidth := Num.max strokeWidth 0;
              strokeLinecap := or_else (strokeCap props) (VStr "butt") |}.

(** ** [Background]  (Pie.js, lines 89-96) *)
Definition Background (dims : Dimensions) (color : value) : option PathElement :=
  ArcShape {| dimensions := dims; color := color; strokeCap := VUndefined;
              startAngle := 0; arcAngle := 360; isBezian := false |}.

(** ** [CleanUpCircles]  (Pie.js, lines 212-248): the inner and the
    outer circle, or [None] for [null]. *)
Definition CleanUpCircles (dims : Dimensions) (backgroundColor : value)
    (visible : bool) : option (PathElement * PathElement) :=
  if (width dims >=? 100)%num || negb visible
     || negb (Num.truthy (radius dims)) || negb (Num.truthy (innerRadius dims))
  then None
  else
    let innerPath :=
      describeArc (radius dims) (radius dims)
                  (Num.max (innerRadius dims - width dims / 2) 0) 0 360 in
    let outerPath :=
      describeArc (radius dims) (radius dims)
                  (radius dims + width dims / 2) 0 360 in
    Some ({| d := innerPath; stroke := backgroundColor;
             strokeWidth := width dims; strokeLinecap := VUndefined |},
          {| d := outerPath; stroke := backgroundColor;
             strokeWidth := width dims; strokeLinecap := VUndefined |}).

(** ** [Pie]  (Pie.js, lines 250-332) *)

(** What [Pie] draws: the children of the rotated group in their order,
    each as what its component returns ([None] for [null]), and the two
    centre texts. *)
Record PieElement : Type := {
  svg_width : num;
  svg_height : num;
  pie_background : option PathElement;
  pie_sections : option (list (option PathElement));
  pie_dividers : option (list (option PathElement));
  pie_cleanUp : option (PathElement * PathElement);
  pie_centerText : option (TextElement * TextElement)
}.

Definition Pie (props : PieProps) : completion PieElement :=
  let dims := pieDimensions (prop_radius props) (prop_innerRadius props)
                            (prop_dividerSize props) in
  let validRadius := radius dims in
  let strokeCapForLargeBands :=
    if is_string (prop_strokeCap props) "round" then VStr "round"
    else VStr "butt" in
  let shouldShowRoundDividers := is_string (prop_strokeCap props) "round" in
  let paintedSections := [] in
  let background := Background dims (prop_backgroundColor props) in
  let (sectionElements, paintedSections) :=
    Sections dims paintedSections (prop_sections props)
             shouldShowRoundDividers strokeCapForLargeBands in
  match RoundDividers dims paintedSections (prop_backgroundColor props)
                      shouldShowRoundDividers with
  | Throw e => Throw e
  | Normal dividers =>
      Normal
        {| svg_width := (validRadius * 2)%num;
           svg_height := (validRadius * 2)%num;
           pie_background := background;
           pie_sections := option_map (map ArcShape) sectionElements;
           pie_dividers := option_map (map ArcShape) dividers;
           pie_cleanUp :=
             CleanUpCircles dims (prop_backgroundColor props)
                            shouldShowRoundDividers;
           pie_centerText :=
             if prop_showCenterText props then
               Some ({| text_x := validRadius;
                        text_y := (validRadius - 5)%num;
                        text_content := prop_centerValue props |},
                     {| text_x := validRadius;
                        text_y := (validRadius + 15)%num;
                        text_content := prop_centerLabel props |})
             else None |}
  end.

End Geometry.

(** ** A sample engine

    The theorems below hold for every [Math.cos] and [Math.sin].  To run
    the functions on concrete inputs the two are instantiated with
    truncated Taylor series, exact on rationals. *)

Definition taylor_cos (a : Q) : Q :=
  1 - a ^ 2 / 2 + a ^ 4 / 24 - a ^ 6 / 720 + a ^ 8 / 40320 - a ^ 10 / 3628800.

Definition taylor_sin (a : Q) : Q :=
  a - a ^ 3 / 6 + a ^ 5 / 120 - a ^ 7 / 5040 + a ^ 9 / 362880
  - a ^ 11 / 39916800.

Definition approx_cos (a : num) : num :=
  match a with Fin q => Num.fin (taylor_cos q) | _ => NaN end.

Definition approx_sin (a : num) : num :=
  match a with Fin q => Num.fin (taylor_sin q) | _ => NaN end.

(** [Math.sin] as the engines in use compute it at the two quarter
    turns, [-Math.PI/2] and [Math.PI/2] (exactly -1 and 1), and the
    series elsewhere. *)
Definition quarter_sin (a : num) : num :=
  match a with
  | Fin q =>
      if Qeqb q (- (Math_PI / 2)) then Fin (-1 # 1)
      else if Qeqb q (Math_PI / 2) then Fin 1
      else Num.fin (taylor_sin q)
  | _ => NaN
  end.

(** ** Double precision

    The normalisation of the two radii (Pie.js, lines 262-267) on IEEE
    binary64 numbers, to compare with the exact arithmetic of [num]. *)

Module Double.

Definition double : Type := spec_float.

Definition of_Z (n : Z) : double := binary_normalize 53 1024 n 0 false.

Definition isNaN (x : double) : bool :=
  match x with S754_nan => true | _ => false end.

Definition truthy (x : double) : bool :=
  match x with S754_nan | S754_zero _ => false | _ => true end.

Definition or_else (x d : double) : double := if truthy x then x else d.

Definition max (x y : double) : double :=
  if isNaN x || isNaN y then S754_nan else if SFleb x y then y else x.

Definition min (x y : double) : double :=
  if isNaN x || isNaN y then S754_nan else if SFleb x y then x else y.

(** [validRadius] and [finalInnerRadius]. *)
Definition radii (radius innerRadius : double) : double * double :=
  let validRadius := max (or_else radius (of_Z 50)) (of_Z 10) in
  let validInnerRadius := max (or_else innerRadius (of_Z 0)) (of_Z 0) in
  let finalInnerRadius :=
    min validInnerRadius (SFsub 53 1024 validRadius (of_Z 1)) in
  (validRadius, finalInnerRadius).

End Double.

(** * Definitions used to state the properties *)

(** [Number.isFinite]: neither [NaN] nor an infinity. *)
Definition isFinite (n : num) : bool :=
  match n with Fin _ => true | _ => false end.

(** The span the specification gives for a percentage:
    [min(percentage/100 * 360, 360)], and [0] for [NaN] and for negative
    percentages. *)
Definition arcSpan_spec (percentage : num) : Q :=
  match percentage with
  | NaN | NInf => 0
  | PInf => 360
  | Fin p => if Qltb p 0 then 0 else Qmin (p / 100 * 360) 360
  end.

(** An entry the specification discards: its percentage is not a number,
    is [NaN] or is at most 0, or its color is missing (falsy). *)
Definition discarded (section : PieSection) : bool :=
  match sec_percentage section with
  | VNum percentage => Num.isNaN percentage || (percentage <=? 0)%num
  | _ => true
  end
  || negb (truthy (sec_color section)).


(** The element the callback returns for an entry it reaches with
    [startValue]. *)
Definition sectionElement (dims : Dimensions) (showDividers : bool)
    (strokeCapForLargeBands : value) (startValue percentage : num)
    (color : value) : option ArcProps :=
  let startAngle := ((startValue / 100) * 360)%num in
  let arcAngle := getArcAngle percentage in
  if (arcAngle <? double_0_1)%num then None
  else
    Some {| dimensions := dims;
            color := color;
            startAngle :=
              if showDividers
              then (startAngle + Num.or_else (dividerSize dims) 0)%num
              else startAngle;
            arcAngle :=
              if showDividers
              then Num.max (arcAngle - Num.or_else (dividerSize dims) 0) double_0_1
              else arcAngle;
            strokeCap := strokeCapForLargeBands;
            isBezian := false |}.

(** The angles [polarToCartesian] hands to the engine for 0 and for 180
    degrees, [(0 - 90) * (Math.PI / 180)] and [(180 - 90) * (Math.PI / 180)]:
    minus and plus the half of [Math.PI] (the two products are exact on
    doubles as well). *)
Definition topAngle : num := Fin (Qred (- (Math_PI / 2))).
Definition bottomAngle : num := Fin (Qred (Math_PI / 2)).

(** [isNaN(v) ? 0 : v] *)
Definition coordinate (v : num) : num := if Num.isNaN v then 0 else v.

(** The closed path of two arcs of radius [r] around [(cx, cy)]: from the
    point at the angle [topAngle] to the point at the angle [bottomAngle]
    and back, each point as [cx + r * Math.cos(a)], [cy + r * Math.sin(a)]. *)
Definition circlePath (Math_cos Math_sin : num -> num) (cx cy r : num) : path :=
  let top_x := coordinate (cx + r * Math_cos topAngle)%num in
  let top_y := coordinate (cy + r * Math_sin topAngle)%num in
  let bottom_x := coordinate (cx + r * Math_cos bottomAngle)%num in
  let bottom_y := coordinate (cy + r * Math_sin bottomAngle)%num in
  [ MoveTo top_x top_y;
    ArcTo r r 0 false true bottom_x bottom_y;
    ArcTo r r 0 false true top_x top_y ].

(** What two half circles need at least: a move to a point, an arc of a
    radius that is not 0 to a second point, apart from the first, and an
    arc of the same radius back. *)
Definition twoHalfCircles (p : path) : Prop :=
  exists (r : Q) (x0 y0 x1 y1 : num),
    p = [ MoveTo x0 y0;
          ArcTo r r 0 false true x1 y1;
          ArcTo r r 0 false true x0 y0 ]
    /\ ~ r == 0 /\ (x0 <> x1 \/ y0 <> y1).

(** The sum of an array of numbers. *)
Definition sumOf (l : list num) : num := fold_left Num.add l 0.

(** The spans of the rendered sections before the divider shrink, as
    [Sections] records them in [paintedSections] when run with round caps. *)
Definition renderedSpans (dims : Dimensions)
    (sections : option (list (option PieSection))) : list num :=
  map painted_arcAngle (snd (Sections dims [] sections true (VStr "round"))).

(** The test of line 142: a span of at least 0.1 is drawn. *)
Definition visibleSpan (span : num) : bool := negb (span <? double_0_1)%num.

(** A percentage that passed the filter is positive. *)
Definition positive (n : num) : Prop :=
  n = PInf \/ exists q, n = Fin q /\ 0 < q.

(** ** Concrete inputs *)

Definition entry (percentage : Q) (color : string) : option PieSection :=
  Some {| sec_percentage := VNum percentage; sec_color := VStr color |}.

(** The example of the specification: two halves. *)
Definition redBlueHalves : list (option PieSection) :=
  [ entry 50 "red"; entry 50 "blue" ].

(** Two sections of 100 percent each. *)
Definition twoWholes : list (option PieSection) :=
  [ entry 100 "red"; entry 100 "blue" ].

(** An entry with a negative percentage. *)
Definition minusFive : PieSection :=
  {| sec_percentage := VNum (-5 # 1); sec_color := VStr "green" |}.

(** [<Pie sections=.. radius=.. innerRadius=.. strokeCap=.. dividerSize=.. />]
    with the default background and no centre text. *)
Definition pieProps (sections : list (option PieSection))
    (radiusProp innerRadiusProp : option num) (strokeCap : string)
    (dividerSizeProp : option num) : PieProps :=
  {| prop_sections := Some sections;
     prop_radius := radiusProp;
     prop_innerRadius := innerRadiusProp;
     prop_backgroundColor := VStr "#fff";
     prop_strokeCap := VStr strokeCap;
     prop_dividerSize := dividerSizeProp;
     prop_showCenterText := false;
     prop_centerValue := EmptyString;
     prop_centerLabel := EmptyString |}.


(** An arc of a section drawn with flat caps. *)
Definition flatArc (dims : Dimensions) (color : string) (startAngle arcAngle : Q)
  : ArcProps :=
  {| dimensions := dims; color := VStr color; strokeCap := VStr "butt";
     startAngle := startAngle; arcAngle := arcAngle; isBezian := false |}.

(** A ring of radius 50 with a hole of radius 25. *)
Definition ringDims : Dimensions := pieDimensions (Some (Fin 50)) (Some (Fin 25)) None.

(** The same ring with a divider size of 5. *)
Definition dividedDims : Dimensions :=
  pieDimensions (Some (Fin 50)) (Some (Fin 25)) (Some (Fin 5)).


(** Simplification of the arithmetic of [num], leaving rationals alone. *)
Ltac num_simpl :=
  cbn [Num.isNaN Num.truthy Num.add Num.sub Num.mul Num.div Num.opp
       Num.ltb Num.leb Num.gtb Num.geb Num.min Num.max Num.or_else
       Num.has_value Num.fin orb andb negb].

(** * Properties *)

(** ** Rational comparisons *)

Lemma Qltb_lt x y : Qltb x y = true <-> x < y.
Proof.
  unfold Qltb. rewrite Qlt_alt. destruct (x ?= y); split; congruence.
Qed.

Lemma Qltb_ge x y : Qltb x y = false <-> y <= x.
Proof.
  split.
  - intros H. apply Qnot_lt_le. rewrite <- Qltb_lt. congruence.
  - intros H. destruct (Qltb x y) eqn:E; [|reflexivity].
    apply Qltb_lt in E. apply Qle_not_lt in H. contradiction.
Qed.

Lemma Qleb_le x y : Qleb x y = true <-> x <= y.
Proof.
  unfold Qleb. rewrite Qle_alt. destruct (x ?= y); split; congruence.
Qed.

Lemma Qleb_gt x y : Qleb x y = false <-> y < x.
Proof.
  unfold Qleb. rewrite (Qgt_alt x y). destruct (x ?= y); split; congruence.
Qed.

Lemma Qeqb_eq x y : Qeqb x y = true <-> x == y.
Proof.
  unfold Qeqb. rewrite Qeq_alt. destruct (x ?= y); split; congruence.
Qed.

Lemma Qeqb_neq x y : Qeqb x y = false <-> ~ x == y.
Proof.
  rewrite <- Qeqb_eq. destruct (Qeqb x y); split; congruence.
Qed.

Lemma degrees_of_percent (p : Q) : p / 100 * 360 == p * (18 # 5).
Proof. field. Qed.

Lemma Qhalf (q : Q) : q / 2 == q * (1 # 2).
Proof. field. Qed.

(** The doubles [0.1] and [359.9] against the decimals they are written
    as: the first is a little more than a tenth, the second a little
    less than 359.9. *)
Lemma double_0_1_bounds : 1 # 10 < double_0_1 /\ double_0_1 < 10001 # 100000.
Proof. unfold double_0_1. split; reflexivity. Qed.

Lemma double_359_9_bounds : 35989 # 100 < double_359_9 /\ double_359_9 < 3599 # 10.
Proof. unfold double_359_9. split; reflexivity. Qed.

(** ** Numbers *)

Lemma isFinite_not_NaN n : isFinite n = true -> Num.isNaN n = false.
Proof. destruct n; simpl; congruence. Qed.

Lemma gtb_negb_leb (n : num) :
  Num.isNaN n = false -> (n >? 0)%num = negb (n <=? 0)%num.
Proof.
  destruct n as [| | |q]; try reflexivity; try discriminate. intros _.
  unfold Num.gtb. num_simpl.
  destruct (Qleb q 0) eqn:E.
  - apply Qleb_le in E. apply Qltb_ge. exact E.
  - apply Qleb_gt in E. apply Qltb_lt. exact E.
Qed.

(** [Math.max(n, floor)] of a number that is not [NaN]. *)
Lemma max_with_floor (n : num) (floor : Q) :
  Num.isNaN n = false ->
  n = PInf /\ Num.max n floor = PInf
  \/ exists v, Num.max n floor = Fin v /\ floor <= v.
Proof.
  intros N. destruct n as [| | |q]; try discriminate.
  - left. split; reflexivity.
  - right. exists floor. num_simpl. split; [reflexivity | lra].
  - right. num_simpl. destruct (Qleb q floor) eqn:E.
    + exists floor. split; [reflexivity | lra].
    + apply Qleb_gt in E. exists q. split; [reflexivity | lra].
Qed.

(** ** [getArcAngle] *)

Example getArcAngle_50 : getArcAngle 50 = 180.
Proof. reflexivity. Qed.

Example getArcAngle_150 : getArcAngle 150 = 360.
Proof. reflexivity. Qed.

Example getArcAngle_Infinity : getArcAngle PInf = 360.
Proof. reflexivity. Qed.

Lemma arcSpan_spec_bounds percentage :
  0 <= arcSpan_spec percentage <= 360.
Proof.
  destruct percentage as [| | |p]; simpl; try lra.
  destruct (Qltb p 0) eqn:E; [lra|].
  apply Qltb_ge in E. split.
  - apply Q.min_glb; rewrite ?degrees_of_percent; lra.
  - apply Q.le_min_r.
Qed.

Lemma getArcAngle_value percentage :
  Num.has_value (getArcAngle percentage) (arcSpan_spec percentage).
Proof.
  destruct percentage as [| | |p]; try reflexivity.
  unfold getArcAngle, arcSpan_spec. num_simpl.
  destruct (Qltb p 0) eqn:E; [reflexivity|].
  apply Qltb_ge in E.
  change (Qeqb 100 0) with false. cbv iota. num_simpl.
  destruct (Qleb _ _) eqn:L; num_simpl.
  - apply Qleb_le in L. rewrite !Qred_correct in *.
    rewrite Q.min_l; [reflexivity | exact L].
  - apply Qleb_gt in L. rewrite !Qred_correct in *.
    rewrite Q.min_r; [reflexivity | apply Qlt_le_weak; exact L].
Qed.

(** C1.  For every percentage the arc span is the number
    [min(percentage/100 * 360, 360)], and [0] when the percentage is [NaN]
    or negative; it is never negative and never exceeds 360. *)
Theorem getArcAngle_spec (percentage : num) :
  exists span : Q,
    getArcAngle percentage = Fin span
    /\ span == arcSpan_spec percentage
    /\ 0 <= span <= 360.
Proof.
  pose proof (getArcAngle_value percentage) as V.
  pose proof (arcSpan_spec_bounds percentage) as B.
  destruct (getArcAngle percentage) as [| | |span]; try contradiction.
  exists span. change (span == arcSpan_spec percentage) in V.
  split; [reflexivity|]. split; [exact V|]. rewrite V. exact B.
Qed.

Lemma getArcAngle_fin percentage :
  exists span, getArcAngle percentage = Fin span /\ 0 <= span <= 360.
Proof.
  pose proof (getArcAngle_value percentage) as V.
  pose proof (arcSpan_spec_bounds percentage) as B.
  destruct (getArcAngle percentage) as [| | |span]; try contradiction.
  exists span. change (span == arcSpan_spec percentage) in V.
  split; [reflexivity|]. rewrite V. exact B.
Qed.

(** ** [describeArc] *)

Section DescribeArc.

Variables Math_cos Math_sin : num -> num.

(** [polarToCartesian] never returns a [NaN] coordinate. *)
Lemma polarToCartesian_no_NaN cx cy r angle :
  Num.isNaN (x (polarToCartesian Math_cos Math_sin cx cy r angle)) = false
  /\ Num.isNaN (y (polarToCartesian Math_cos Math_sin cx cy r angle)) = false.
Proof.
  unfold polarToCartesian. destruct (_ || _); [split; reflexivity|].
  cbn [x y]. split.
  - destruct (Num.isNaN (cx + _)%num) eqn:E; [reflexivity | exact E].
  - destruct (Num.isNaN (cy + _)%num) eqn:E; [reflexivity | exact E].
Qed.

Lemma describeArc_NaN cx cy r startAngle arcAngle :
  Num.isNaN cx || Num.isNaN cy || Num.isNaN r
  || Num.isNaN startAngle || Num.isNaN arcAngle = true ->
  describeArc Math_cos Math_sin cx cy r startAngle arcAngle = placeholder.
Proof. intros H. unfold describeArc. rewrite H. reflexivity. Qed.

Lemma describeArc_no_span cx cy r startAngle arcAngle :
  (arcAngle <=? 0)%num = true ->
  describeArc Math_cos Math_sin cx cy r startAngle arcAngle = placeholder.
Proof.
  intros H. unfold describeArc. rewrite H.
  destruct (_ || _); reflexivity.
Qed.

Lemma at_least_full_positive arcAngle :
  (arcAngle >=? double_359_9)%num = true -> (arcAngle <=? 0)%num = false.
Proof.
  destruct arcAngle as [| | |a]; try reflexivity; try discriminate.
  unfold Num.geb. num_simpl. intros H.
  apply Qleb_le in H. apply Qleb_gt.
  pose proof double_359_9_bounds. lra.
Qed.

Lemma describeArc_full_circle cx cy r startAngle arcAngle :
  Num.isNaN cx || Num.isNaN cy || Num.isNaN r
  || Num.isNaN startAngle || Num.isNaN arcAngle = false ->
  (arcAngle >=? double_359_9)%num = true ->
  describeArc Math_cos Math_sin cx cy r startAngle arcAngle =
    let topPoint := polarToCartesian Math_cos Math_sin cx cy r 0 in
    let bottomPoint := polarToCartesian Math_cos Math_sin cx cy r 180 in
    [ MoveTo (x topPoint) (y topPoint);
      ArcTo r r 0 false true (x bottomPoint) (y bottomPoint);
      ArcTo r r 0 false true (x topPoint) (y topPoint) ].
Proof.
  intros N H. unfold describeArc.
  rewrite N, H, (at_least_full_positive _ H). reflexivity.
Qed.

Lemma describeArc_single cx cy r startAngle arcAngle :
  Num.isNaN cx || Num.isNaN cy || Num.isNaN r
  || Num.isNaN startAngle || Num.isNaN arcAngle = false ->
  (arcAngle <=? 0)%num = false ->
  (arcAngle >=? double_359_9)%num = false ->
  describeArc Math_cos Math_sin cx cy r startAngle arcAngle =
    let start := polarToCartesian Math_cos Math_sin cx cy r (startAngle + arcAngle) in
    let end_ := polarToCartesian Math_cos Math_sin cx cy r startAngle in
    [ MoveTo (x start) (y start);
      ArcTo r r 0 (arcAngle >? 180)%num false (x end_) (y end_) ].
Proof.
  intros N L H. unfold describeArc. rewrite N, L, H. reflexivity.
Qed.

Lemma all_finite_no_NaN cx cy r startAngle arcAngle :
  isFinite cx && isFinite cy && isFinite r
  && isFinite startAngle && isFinite arcAngle = true ->
  Num.isNaN cx || Num.isNaN cy || Num.isNaN r
  || Num.isNaN startAngle || Num.isNaN arcAngle = false.
Proof.
  intros H. repeat (apply andb_prop in H; destruct H as [H ?]).
  rewrite !isFinite_not_NaN by assumption. reflexivity.
Qed.

(** An infinite centre is not caught by the [isNaN] tests: the path
    holds an arc, whatever the engine computes. *)
Lemma describeArc_infinite_cx :
  describeArc Math_cos Math_sin PInf 0 1 0 90 <> placeholder.
Proof. unfold describeArc. cbn. discriminate. Qed.

(** C3 (as amended).  When an argument of [describeArc] is [NaN], or
    the arc span is at most 0 (also [-Infinity]), the result is the
    placeholder path ['M 0 0']; [describeArc] is total, it never
    raises. *)
Theorem describeArc_placeholder cx cy r startAngle arcAngle :
  Num.isNaN cx || Num.isNaN cy || Num.isNaN r
  || Num.isNaN startAngle || Num.isNaN arcAngle = true
  \/ (arcAngle <=? 0)%num = true ->
  describeArc Math_cos Math_sin cx cy r startAngle arcAngle = placeholder.
Proof.
  intros [H|H]; [apply describeArc_NaN | apply describeArc_no_span]; exact H.
Qed.

(** The points [describeArc] computes for the angles 0 and 180. *)
Lemma polarToCartesian_top cx cy r :
  Num.isNaN cx || Num.isNaN cy || Num.isNaN r = false ->
  polarToCartesian Math_cos Math_sin cx cy r 0
  = {| x := coordinate (cx + r * Math_cos topAngle)%num;
       y := coordinate (cy + r * Math_sin topAngle)%num |}.
Proof.
  intros N. unfold polarToCartesian. cbn [Num.isNaN]. rewrite orb_false_r, N.
  reflexivity.
Qed.

Lemma polarToCartesian_bottom cx cy r :
  Num.isNaN cx || Num.isNaN cy || Num.isNaN r = false ->
  polarToCartesian Math_cos Math_sin cx cy r 180
  = {| x := coordinate (cx + r * Math_cos bottomAngle)%num;
       y := coordinate (cy + r * Math_sin bottomAngle)%num |}.
Proof.
  intros N. unfold polarToCartesian. cbn [Num.isNaN]. rewrite orb_false_r, N.
  reflexivity.
Qed.

Lemma describeArc_circlePath cx cy r startAngle arcAngle :
  Num.isNaN cx || Num.isNaN cy || Num.isNaN r
  || Num.isNaN startAngle || Num.isNaN arcAngle = false ->
  (arcAngle >=? double_359_9)%num = true ->
  describeArc Math_cos Math_sin cx cy r startAngle arcAngle
  = circlePath Math_cos Math_sin cx cy r.
Proof.
  intros N H. rewrite (describeArc_full_circle _ _ _ _ _ N H). cbv zeta.
  assert (N3 : Num.isNaN cx || Num.isNaN cy || Num.isNaN r = false).
  { destruct (Num.isNaN cx), (Num.isNaN cy), (Num.isNaN r);
      try discriminate; reflexivity. }
  rewrite (polarToCartesian_top _ _ _ N3), (polarToCartesian_bottom _ _ _ N3).
  reflexivity.
Qed.

(** The two heights of the circle when the sine is exact at the two
    angles: [cy + r * (-1)] and [cy + r * 1]. *)
Lemma height_top cy r :
  isFinite cy = true -> isFinite r = true ->
  coordinate (cy + r * Fin (-1 # 1))%num = (cy - r)%num.
Proof.
  destruct cy as [| | |c], r as [| | |q]; try discriminate. intros _ _.
  unfold coordinate. num_simpl. apply (f_equal Fin). apply Qred_complete.
  rewrite Qred_correct. ring.
Qed.

Lemma height_bottom cy r :
  isFinite cy = true -> isFinite r = true ->
  coordinate (cy + r * Fin 1)%num = (cy + r)%num.
Proof.
  destruct cy as [| | |c], r as [| | |q]; try discriminate. intros _ _.
  unfold coordinate. num_simpl. apply (f_equal Fin). apply Qred_complete.
  rewrite Qred_correct. ring.
Qed.

(** C5 (as amended).  With finite arguments and an arc span of at least
    359.9 (the double) the path is a move to the point computed for the
    angle 0 followed by exactly two arc commands, each with both radii
    [r], large-arc flag 0 and sweep flag 1: the first to the point
    computed for the angle 180, the second back to the first point; a
    point is [cx + r * Math.cos(a)], [cy + r * Math.sin(a)] at
    [a = -Math.PI/2] and [a = Math.PI/2], a [NaN] coordinate replaced
    by 0.  When the engine's sine is -1 and 1 at these two angles, the
    first point is at the height [cy - r] and the second at the height
    [cy + r].  The radius is not tested: it may be 0. *)
Theorem describeArc_closed_circle cx cy r startAngle arcAngle :
  isFinite cx && isFinite cy && isFinite r
  && isFinite startAngle && isFinite arcAngle = true ->
  (arcAngle >=? double_359_9)%num = true ->
  describeArc Math_cos Math_sin cx cy r startAngle arcAngle
  = circlePath Math_cos Math_sin cx cy r
  /\ arc_count (describeArc Math_cos Math_sin cx cy r startAngle arcAngle) = 2%nat
  /\ (Math_sin topAngle = Fin (-1 # 1) -> Math_sin bottomAngle = Fin 1 ->
      describeArc Math_cos Math_sin cx cy r startAngle arcAngle
      = [ MoveTo (coordinate (cx + r * Math_cos topAngle)) (cy - r);
          ArcTo r r 0 false true
                (coordinate (cx + r * Math_cos bottomAngle)) (cy + r);
          ArcTo r r 0 false true
                (coordinate (cx + r * Math_cos topAngle)) (cy - r) ]).
Proof.
  intros F H.
  assert (Fy : isFinite cy = true /\ isFinite r = true).
  { destruct (isFinite cx), (isFinite cy), (isFinite r); try discriminate.
    split; reflexivity. }
  apply all_finite_no_NaN in F.
  rewrite (describeArc_circlePath _ _ _ _ _ F H).
  split; [reflexivity|]. split; [reflexivity|].
  intros Et Eb. unfold circlePath. cbv zeta. rewrite Et, Eb.
  destruct Fy as [Fc Fr].
  rewrite (height_top cy r Fc Fr), (height_bottom cy r Fc Fr). reflexivity.
Qed.

(** C9.  With finite arguments and an arc span strictly between 0 and
    359.9 (the double the source compares with) the path holds exactly
    one arc command, and its large-arc flag is set exactly when the span
    is greater than 180. *)
Theorem describeArc_one_arc cx cy r startAngle arcAngle :
  isFinite cx && isFinite cy && isFinite r
  && isFinite startAngle && isFinite arcAngle = true ->
  (0 <? arcAngle)%num = true ->
  (arcAngle <? double_359_9)%num = true ->
  let start := polarToCartesian Math_cos Math_sin cx cy r (startAngle + arcAngle) in
  let end_ := polarToCartesian Math_cos Math_sin cx cy r startAngle in
  describeArc Math_cos Math_sin cx cy r startAngle arcAngle =
    [ MoveTo (x start) (y start);
      ArcTo r r 0 (arcAngle >? 180)%num false (x end_) (y end_) ]
  /\ arc_count (describeArc Math_cos Math_sin cx cy r startAngle arcAngle) = 1%nat.
Proof.
  intros F L H start end_.
  assert (Ha : isFinite arcAngle = true).
  { apply andb_prop in F. apply F. }
  apply all_finite_no_NaN in F.
  destruct arcAngle as [| | |a]; try discriminate.
  cbn [Num.ltb] in L, H. apply Qltb_lt in L. apply Qltb_lt in H.
  rewrite describeArc_single; try assumption.
  - split; reflexivity.
  - cbn [Num.leb]. apply Qleb_gt. exact L.
  - unfold Num.geb. cbn [Num.leb]. apply Qleb_gt. exact H.
Qed.

End DescribeArc.

(** C3, the claim as stated fails: the centre [Infinity] is not finite,
    and [describeArc(Infinity, 0, 1, 0, 90)] is a path with one arc, not
    the placeholder. *)
Lemma describeArc_infinite_centre :
  isFinite PInf = false
  /\ describeArc approx_cos approx_sin PInf 0 1 0 90 <> placeholder
  /\ arc_count (describeArc approx_cos approx_sin PInf 0 1 0 90) = 1%nat.
Proof.
  split; [reflexivity|]. split; [apply describeArc_infinite_cx|].
  vm_compute. reflexivity.
Qed.

Lemma describeArc_placeholder_witness :
  (Num.isNaN 50 || Num.isNaN 50 || Num.isNaN NaN
   || Num.isNaN 0 || Num.isNaN 90 = true
   \/ (90 <=? 0)%num = true)
  /\ describeArc approx_cos approx_sin 50 50 NaN 0 90 = placeholder.
Proof.
  split; [left; reflexivity|].
  apply (describeArc_placeholder approx_cos approx_sin 50 50 NaN 0 90).
  left. reflexivity.
Defined.

(** C5, the claim as stated fails: the radius 0 is finite, and
    [describeArc(50, 50, 0, 0, 360)] is a path whose two arcs have the
    radius 0 and whose three points are the same point: no half
    circle. *)
Lemma describeArc_zero_radius :
  isFinite 50 && isFinite 50 && isFinite 0
  && isFinite 0 && isFinite 360 = true
  /\ (360 >=? double_359_9)%num = true
  /\ describeArc approx_cos approx_sin 50 50 0 0 360
     = [ MoveTo 50 50;
         ArcTo 0 0 0 false true 50 50;
         ArcTo 0 0 0 false true 50 50 ]
  /\ ~ twoHalfCircles (describeArc approx_cos approx_sin 50 50 0 0 360).
Proof.
  assert (E : describeArc approx_cos approx_sin 50 50 0 0 360
              = [ MoveTo 50 50;
                  ArcTo 0 0 0 false true 50 50;
                  ArcTo 0 0 0 false true 50 50 ]) by (vm_compute; reflexivity).
  split; [reflexivity|]. split; [reflexivity|]. split; [exact E|].
  rewrite E. intros (r & x0 & y0 & x1 & y1 & H & Hr & _).
  injection H as _ _ <- _ _ _ _. apply Hr. reflexivity.
Qed.

Lemma describeArc_closed_circle_witness :
  isFinite 50 && isFinite 50 && isFinite (75 # 2)
  && isFinite 0 && isFinite 360 = true
  /\ (360 >=? double_359_9)%num = true
  /\ quarter_sin topAngle = Fin (-1 # 1)
  /\ quarter_sin bottomAngle = Fin 1
  /\ describeArc approx_cos quarter_sin 50 50 (75 # 2) 0 360
     = [ MoveTo (coordinate (50 + (75 # 2) * approx_cos topAngle)) (50 - (75 # 2));
         ArcTo (75 # 2) (75 # 2) 0 false true
               (coordinate (50 + (75 # 2) * approx_cos bottomAngle)) (50 + (75 # 2));
         ArcTo (75 # 2) (75 # 2) 0 false true
               (coordinate (50 + (75 # 2) * approx_cos topAngle)) (50 - (75 # 2)) ].
Proof.
  repeat (split; [reflexivity|]).
  apply (describeArc_closed_circle approx_cos quarter_sin 50 50 (75 # 2) 0 360);
    reflexivity.
Defined.

Lemma describeArc_one_arc_witness :
  isFinite 50 && isFinite 50 && isFinite (75 # 2)
  && isFinite 0 && isFinite 270 = true
  /\ (0 <? 270)%num = true
  /\ (270 <? double_359_9)%num = true
  /\ describeArc approx_cos approx_sin 50 50 (75 # 2) 0 270 =
       [ MoveTo (x (polarToCartesian approx_cos approx_sin 50 50 (75 # 2) (0 + 270)))
                (y (polarToCartesian approx_cos approx_sin 50 50 (75 # 2) (0 + 270)));
         ArcTo (75 # 2) (75 # 2) 0 true false
               (x (polarToCartesian approx_cos approx_sin 50 50 (75 # 2) 0))
               (y (polarToCartesian approx_cos approx_sin 50 50 (75 # 2) 0)) ].
Proof.
  repeat (split; [reflexivity|]).
  apply (describeArc_one_arc approx_cos approx_sin 50 50 (75 # 2) 0 270);
    reflexivity.
Defined.

(** ** The normalisation of the props *)

Lemma prop_or_not_NaN (p : option num) (d : Q) :
  Num.isNaN (prop_or p d) = false.
Proof.
  destruct p as [[| | |q]|]; try reflexivity.
  unfold prop_or, Num.or_else. destruct (Num.truthy q); reflexivity.
Qed.

Lemma prop_or_PInf (p : option num) (d : Q) :
  prop_or p d = PInf -> p = Some PInf.
Proof.
  destruct p as [[| | |q]|]; try discriminate; try reflexivity.
  unfold prop_or, Num.or_else. destruct (Num.truthy q); discriminate.
Qed.

(** The normalised dimensions when the radius is not [Infinity]. *)
Lemma pieDimensions_finite radiusProp innerRadiusProp dividerSizeProp :
  radiusProp <> Some PInf ->
  exists R F : Q,
    radius (pieDimensions radiusProp innerRadiusProp dividerSizeProp) = Fin R
    /\ innerRadius (pieDimensions radiusProp innerRadiusProp dividerSizeProp) = Fin F
    /\ Num.has_value (width (pieDimensions radiusProp innerRadiusProp dividerSizeProp)) (R - F)
    /\ 10 <= R /\ 0 <= F <= R - 1.
Proof.
  intros HR. unfold pieDimensions. cbn [radius innerRadius width].
  destruct (max_with_floor (prop_or radiusProp 50) 10 (prop_or_not_NaN _ _))
    as [[E _]|(R & -> & HR10)].
  { apply prop_or_PInf in E. contradiction. }
  destruct (max_with_floor (prop_or innerRadiusProp 0) 0 (prop_or_not_NaN _ _))
    as [[_ ->]|(I & -> & HI0)].
  - exists R, (Qred (R - 1)). num_simpl.
    repeat split; try reflexivity; rewrite ?Qred_correct; lra.
  - num_simpl. destruct (Qleb I (Qred (R - 1))) eqn:E.
    + apply Qleb_le in E. rewrite Qred_correct in E.
      exists R, I. num_simpl.
      repeat split; try reflexivity; rewrite ?Qred_correct; lra.
    + exists R, (Qred (R - 1)). num_simpl.
      repeat split; try reflexivity; rewrite ?Qred_correct; lra.
Qed.


(** As long as [validRadius - 1] is computed exactly, which on doubles
    it is up to 2^53, the normalised inner radius is less than the
    normalised outer radius, whatever the [innerRadius] prop is. *)
Lemma inner_lt_outer_below_2_53 radiusProp innerRadiusProp dividerSizeProp :
  radiusProp <> Some PInf ->
  (forall q, radiusProp = Some (Fin q) -> q <= inject_Z (2 ^ 53)) ->
  let dims := pieDimensions radiusProp innerRadiusProp dividerSizeProp in
  (10 <=? radius dims)%num = true
  /\ (innerRadius dims <? radius dims)%num = true.
Proof.
  intros HR _ dims.
  destruct (pieDimensions_finite radiusProp innerRadiusProp dividerSizeProp HR)
    as (R & F & ER & EF & _ & HR10 & HF).
  subst dims. rewrite ER, EF. num_simpl. split.
  - apply Qleb_le. exact HR10.
  - apply Qltb_lt. lra.
Qed.

(** With [radius] and [innerRadius] both [Infinity] the two normalised
    radii are both [Infinity], so the inner one is not less. *)
Lemma infinite_radii_coincide :
  radius (pieDimensions (Some PInf) (Some PInf) None) = PInf
  /\ innerRadius (pieDimensions (Some PInf) (Some PInf) None) = PInf
  /\ (innerRadius (pieDimensions (Some PInf) (Some PInf) None)
      <? radius (pieDimensions (Some PInf) (Some PInf) None))%num = false.
Proof. repeat split. Qed.

(** C4.  The clamp of line 267 does not keep the inner radius below the
    outer one.  On doubles [validRadius - 1] is [validRadius] again from
    2^53 on: for the radius 2^54 and the inner radius 2^55 the two
    normalised radii are both 2^54, and [finalInnerRadius < validRadius]
    is false. *)
Theorem double_radius_absorbs_one :
  Double.radii (Double.of_Z (2 ^ 54)) (Double.of_Z (2 ^ 55))
  = (Double.of_Z (2 ^ 54), Double.of_Z (2 ^ 54))
  /\ SFltb (snd (Double.radii (Double.of_Z (2 ^ 54)) (Double.of_Z (2 ^ 55))))
           (fst (Double.radii (Double.of_Z (2 ^ 54)) (Double.of_Z (2 ^ 55))))
     = false.
Proof. split; vm_compute; reflexivity. Qed.

(** Below 2^53, as for the radius 50, the doubles agree with the exact
    arithmetic. *)
Example double_radius_50 :
  Double.radii (Double.of_Z 50) (Double.of_Z 80)
  = (Double.of_Z 50, Double.of_Z 49).
Proof. vm_compute. reflexivity. Qed.

Example exact_radius_50 :
  radius (pieDimensions (Some (Fin 50)) (Some (Fin 80)) None) = 50
  /\ innerRadius (pieDimensions (Some (Fin 50)) (Some (Fin 80)) None) = 49.
Proof. split; reflexivity. Qed.

(** The radius of the stroke, [radius - width / 2], when the radius is
    not [Infinity]. *)
Lemma strokeRadius_finite radiusProp innerRadiusProp dividerSizeProp :
  radiusProp <> Some PInf ->
  let dims := pieDimensions radiusProp innerRadiusProp dividerSizeProp in
  exists R F : Q,
    radius dims = Fin R /\ innerRadius dims = Fin F
    /\ Num.has_value (radius dims - width dims / 2)%num ((R + F) / 2)
    /\ 5 <= (R + F) / 2.
Proof.
  intros HR dims.
  destruct (pieDimensions_finite radiusProp innerRadiusProp dividerSizeProp HR)
    as (R & F & ER & EF & EW & HR10 & HF).
  fold dims in ER, EF, EW. exists R, F. rewrite ER.
  destruct (width dims) as [| | |W]; try contradiction.
  cbn [Num.has_value] in EW.
  repeat split; try assumption.
  - num_simpl. change (Qeqb 2 0) with false. cbv iota. num_simpl.
    rewrite !Qred_correct, EW, !Qhalf. lra.
  - rewrite Qhalf. lra.
Qed.

Section Render.

Variables Math_cos Math_sin : num -> num.


(** Every element [Sections] and [RoundDividers] return carries the
    dimensions they were given. *)
Lemma sectionArcs_dimensions dims sd rd cap valid startValue painted :
  Forall (fun a => dimensions a = dims)
         (filterBoolean (fst (sectionArcs dims sd rd cap valid startValue painted))).
Proof.
  revert startValue painted.
  induction valid as [|[percentage color] rest IH]; intros startValue painted.
  - constructor.
  - cbn [sectionArcs].
    destruct (getArcAngle percentage <? double_0_1)%num.
    + specialize (IH (startValue + percentage)%num painted).
      destruct (sectionArcs _ _ _ _ rest _ _). exact IH.
    + match goal with
      | |- context [sectionArcs _ _ _ _ rest ?s ?p] =>
          specialize (IH s p); destruct (sectionArcs _ _ _ _ rest s p)
      end.
      cbn [fst filterBoolean]. constructor; [reflexivity | exact IH].
Qed.

Lemma Sections_dimensions dims painted sections rd cap arcs :
  fst (Sections dims painted sections rd cap) = Some arcs ->
  Forall (fun a => dimensions a = dims) arcs.
Proof.
  unfold Sections. destruct sections as [sections|]; [|discriminate].
  destruct (_ =? _)%nat; [discriminate|].
  destruct (_ =? _)%nat; [discriminate|].
  pose proof (sectionArcs_dimensions dims
                (shouldShowDivider (validSections sections) (dividerSize dims))
                rd cap (validSections sections) 0 painted) as H.
  destruct (sectionArcs _ _ _ _ _ _ _). cbn [fst] in *.
  intros [= <-]. exact H.
Qed.

Lemma dividerArcs_dimensions dims backgroundColor offset painted arcs :
  dividerArcs dims backgroundColor offset painted = Normal arcs ->
  Forall (fun a => dimensions a = dims) arcs.
Proof.
  revert arcs. induction painted as [|section rest IH]; intros arcs.
  - intros [= <-]. constructor.
  - cbn [dividerArcs].
    destruct (dividerArcs dims backgroundColor offset rest) as [others|e].
    2:{ destruct (_ || _); [discriminate|]. destruct (arrayLength _); discriminate. }
    specialize (IH others eq_refl).
    destruct (_ || _).
    + intros [= <-]. exact IH.
    + destruct (arrayLength _) as [n|]; [|discriminate].
      intros [= <-]. apply Forall_app. split; [|exact IH].
      apply Forall_flat_map, Forall_forall. intros i _.
      repeat constructor.
Qed.

Lemma RoundDividers_dimensions dims painted backgroundColor visible arcs :
  RoundDividers dims painted backgroundColor visible = Normal (Some arcs) ->
  Forall (fun a => dimensions a = dims) arcs.
Proof.
  unfold RoundDividers. destruct (negb _); [discriminate|].
  destruct (dividerArcs _ _ _ _) eqn:E; [|discriminate].
  intros [= <-]. eapply dividerArcs_dimensions. exact E.
Qed.


(** The decomposition of a render that ends normally. *)
Lemma Pie_normal props tree :
  Pie Math_cos Math_sin props = Normal tree ->
  let dims := pieDimensions (prop_radius props) (prop_innerRadius props)
                            (prop_dividerSize props) in
  let round := is_string (prop_strokeCap props) "round" in
  let cap := if round then VStr "round" else VStr "butt" in
  let sections := Sections dims [] (prop_sections props) round cap in
  pie_background tree =
    Background Math_cos Math_sin dims (prop_backgroundColor props)
  /\ pie_sections tree =
       option_map (map (ArcShape Math_cos Math_sin)) (fst sections)
  /\ (exists dividers,
        RoundDividers dims (snd sections) (prop_backgroundColor props) round
          = Normal dividers
        /\ pie_dividers tree =
             option_map (map (ArcShape Math_cos Math_sin)) dividers)
  /\ pie_cleanUp tree =
       CleanUpCircles Math_cos Math_sin dims (prop_backgroundColor props) round.
Proof.
  intros H dims round cap sections. unfold Pie in H. cbv zeta in H.
  subst sections cap round dims.
  destruct (Sections _ _ _ _ _) as [sectionElements painted].
  destruct (RoundDividers _ painted _ _) as [dividers|e] eqn:E;
    [|discriminate].
  injection H as <-. cbn.
  repeat split; try reflexivity. exists dividers. split; [exact E | reflexivity].
Qed.





End Render.





(** A divider size that is not a whole number makes [Array(dividerSize + 2)]
    throw as soon as two sections are painted with round caps. *)
Example fractional_divider_throws :
  Pie approx_cos approx_sin
      (pieProps redBlueHalves (Some (Fin 50)) (Some (Fin 25)) "round"
                (Some (Fin (5 # 2))))
  = Throw "RangeError: Invalid array length".
Proof. vm_compute. reflexivity. Qed.

(** ** The section filter *)

Lemma validSection_discarded (section : PieSection) :
  validSection (Some section) = None <-> discarded section = true.
Proof.
  destruct section as [percentage color]. unfold validSection, discarded.
  cbn [sec_percentage sec_color].
  destruct percentage as [| |b|n|s]; try (cbn; tauto).
  destruct (Num.isNaN n) eqn:N; [cbn; tauto|].
  rewrite (gtb_negb_leb n N). cbn [negb andb orb].
  destruct (n <=? 0)%num, (truthy color); cbn; split; congruence.
Qed.

Lemma validSections_app before after :
  validSections (before ++ after) = validSections before ++ validSections after.
Proof.
  induction before as [|section rest IH]; [reflexivity|].
  cbn [validSections app]. destruct (validSection section); [|exact IH].
  cbn [app]. rewrite IH. reflexivity.
Qed.

Lemma validSections_length_zero sections :
  (List.length sections =? 0)%nat = true -> validSections sections = [].
Proof. destruct sections; [reflexivity | discriminate]. Qed.

(** What [Sections] returns depends on the array only through the
    entries the filter keeps. *)
Lemma Sections_of_valid dims painted sections sections' rd cap :
  validSections sections = validSections sections' ->
  Sections dims painted (Some sections) rd cap
  = Sections dims painted (Some sections') rd cap.
Proof.
  intros E. unfold Sections.
  destruct (List.length sections =? 0)%nat eqn:L;
    destruct (List.length sections' =? 0)%nat eqn:L'.
  - reflexivity.
  - rewrite <- E, (validSections_length_zero _ L). reflexivity.
  - rewrite E, (validSections_length_zero _ L'). reflexivity.
  - rewrite E. reflexivity.
Qed.

(** C6.  An entry whose percentage is not a number, is [NaN] or is at
    most 0, or whose color is missing, does not pass the filter, and
    [Sections] returns what it returns for the array without the entry:
    the same arcs at the same start angles, and the same painted
    sections.  A percentage of -5 is such an entry. *)
Theorem invalid_section_discarded dims painted before section after rd cap :
  discarded section = true ->
  validSection (Some section) = None
  /\ Sections dims painted (Some (before ++ Some section :: after)) rd cap
     = Sections dims painted (Some (before ++ after)) rd cap.
Proof.
  intros H. apply validSection_discarded in H. split; [exact H|].
  apply Sections_of_valid. rewrite !validSections_app.
  cbn [validSections]. rewrite H. reflexivity.
Qed.

Lemma invalid_section_discarded_witness :
  discarded minusFive = true
  /\ validSection (Some minusFive) = None
  /\ Sections ringDims [] (Some ([entry 50 "red"] ++ Some minusFive :: [entry 50 "blue"]))
              false (VStr "butt")
     = Sections ringDims [] (Some ([entry 50 "red"] ++ [entry 50 "blue"]))
                false (VStr "butt").
Proof.
  split; [reflexivity|].
  apply (invalid_section_discarded ringDims [] [entry 50 "red"] minusFive
           [entry 50 "blue"] false (VStr "butt")).
  reflexivity.
Defined.

(** ** The walk over the valid sections *)






(** The shrink of line 150 is keyed on the divider size, not on the
    caps: with flat caps and a divider size of 5 the two halves are drawn
    as arcs of 175 degrees starting at 5 and at 185. *)
Example redBlueHalves_divider_5 :
  fst (Sections (pieDimensions (Some (Fin 50)) (Some (Fin 25)) (Some (Fin 5))) []
                (Some redBlueHalves) false (VStr "butt"))
  = Some [ flatArc (pieDimensions (Some (Fin 50)) (Some (Fin 25)) (Some (Fin 5)))
                   "red" 5 175;
           flatArc (pieDimensions (Some (Fin 50)) (Some (Fin 25)) (Some (Fin 5)))
                   "blue" 185 175 ].
Proof. reflexivity. Qed.

(** ** The spans of the rendered sections *)

Lemma sectionArcs_painted_spans dims sd cap valid startValue painted :
  map painted_arcAngle (snd (sectionArcs dims sd true cap valid startValue painted))
  = map painted_arcAngle painted
    ++ filter visibleSpan (map (fun v => getArcAngle (fst v)) valid).
Proof.
  revert startValue painted.
  induction valid as [|[p c] rest IH]; intros startValue painted.
  - cbn. rewrite app_nil_r. reflexivity.
  - cbn [sectionArcs map filter fst]. unfold visibleSpan at 1.
    destruct (getArcAngle p <? double_0_1)%num; cbn [negb].
    + specialize (IH (startValue + p)%num painted).
      destruct (sectionArcs _ _ _ _ rest _ _). exact IH.
    + match goal with
      | |- context [sectionArcs _ _ _ _ rest ?s ?q] =>
          specialize (IH s q); destruct (sectionArcs _ _ _ _ rest s q)
      end.
      cbn [snd] in *. rewrite IH, map_app, <- app_assoc. reflexivity.
Qed.

(** Without the divider shrink the spans of the arcs are the same spans. *)
Lemma sectionArcs_spans_unshrunk dims rd cap valid startValue painted :
  map arcAngle
      (filterBoolean (fst (sectionArcs dims false rd cap valid startValue painted)))
  = filter visibleSpan (map (fun v => getArcAngle (fst v)) valid).
Proof.
  revert startValue painted.
  induction valid as [|[p c] rest IH]; intros startValue painted.
  - reflexivity.
  - cbn [sectionArcs map filter fst]. unfold visibleSpan at 1.
    destruct (getArcAngle p <? double_0_1)%num; cbn [negb].
    + specialize (IH (startValue + p)%num painted).
      destruct (sectionArcs _ _ _ _ rest _ _). exact IH.
    + match goal with
      | |- context [sectionArcs _ _ _ _ rest ?s ?q] =>
          specialize (IH s q); destruct (sectionArcs _ _ _ _ rest s q)
      end.
      cbn [fst filterBoolean map arcAngle] in *. rewrite IH. reflexivity.
Qed.

Lemma renderedSpans_valid dims sections :
  renderedSpans dims (Some sections)
  = filter visibleSpan
           (map (fun v => getArcAngle (fst v)) (validSections sections)).
Proof.
  unfold renderedSpans, Sections.
  destruct (List.length sections =? 0)%nat eqn:L.
  { rewrite (validSections_length_zero _ L). reflexivity. }
  destruct (List.length (validSections sections) =? 0)%nat eqn:L'.
  { destruct (validSections sections); [reflexivity | discriminate]. }
  pose proof (sectionArcs_painted_spans dims
                (shouldShowDivider (validSections sections) (dividerSize dims))
                (VStr "round") (validSections sections) 0 []) as H.
  destruct (sectionArcs _ _ _ _ _ _ _). exact H.
Qed.

(** A rendered span lies between the visibility threshold and 360. *)
Lemma renderedSpans_bounds dims sections :
  Forall (fun span => exists s, span = Fin s /\ double_0_1 <= s <= 360)
         (renderedSpans dims sections).
Proof.
  destruct sections as [sections|]; [|constructor].
  rewrite renderedSpans_valid. apply Forall_forall. intros span H.
  apply filter_In in H. destruct H as [H V].
  apply in_map_iff in H. destruct H as (v & <- & _).
  destruct (getArcAngle_fin (fst v)) as (s & E & B).
  rewrite E in *. exists s. split; [reflexivity|].
  unfold visibleSpan in V. cbn [Num.ltb] in V.
  apply negb_true_iff, Qltb_ge in V. split; [exact V | apply B].
Qed.

Lemma sum_upper_bound (bound : Q) (l : list num) (a : Q) :
  Forall (fun n => exists s, n = Fin s /\ s <= bound) l ->
  exists total, fold_left Num.add l (Fin a) = Fin total
                /\ total <= a + bound * inject_Z (Z.of_nat (List.length l)).
Proof.
  intros H. revert a. induction H as [|n l (s & -> & Hs) _ IH]; intros a.
  - exists a. split; [reflexivity|].
    cbn [List.length Z.of_nat]. change (inject_Z 0) with 0. lra.
  - cbn [fold_left]. num_simpl.
    destruct (IH (Qred (a + s))) as (total & E & HS).
    exists total. split; [exact E|].
    rewrite Qred_correct in HS.
    replace (List.length (Fin s :: l)) with (S (List.length l)) by reflexivity.
    rewrite Nat2Z.inj_succ. unfold Z.succ. rewrite inject_Z_plus.
    change (inject_Z 1) with 1. nra.
Qed.

Lemma validSection_Some section percentage color :
  validSection section = Some (percentage, color) ->
  Num.isNaN percentage = false /\ (percentage >? 0)%num = true
  /\ truthy color = true.
Proof.
  destruct section as [[[| |b|n|s] c]|]; try discriminate.
  unfold validSection.
  destruct (Num.isNaN n) eqn:N; [discriminate|].
  destruct (n >? 0)%num eqn:G; [|discriminate].
  destruct (truthy c) eqn:T; [|discriminate].
  intros [= <- <-]. auto.
Qed.

Lemma validSections_positive sections :
  Forall positive (map fst (validSections sections)).
Proof.
  induction sections as [|section rest IH]; [constructor|].
  cbn [validSections]. destruct (validSection section) as [[p c]|] eqn:E;
    [|exact IH].
  constructor; [|exact IH].
  apply validSection_Some in E. destruct E as (N & G & _).
  cbn [fst]. destruct p as [| | |q]; try discriminate.
  - left. reflexivity.
  - right. exists q. split; [reflexivity|]. apply Qltb_lt. exact G.
Qed.

(** C2 (as amended).  Every rendered section has a span (before the
    divider shrink) of at least 0.1 and at most 360 degrees, so the spans
    of [n] rendered sections sum to at most [360 * n]: each span is
    capped on its own, the sum is not. *)
Theorem renderedSpans_sum dims (sections : list (option PieSection)) :
  let spans := renderedSpans dims (Some sections) in
  Forall (fun span => exists s, span = Fin s /\ double_0_1 <= s <= 360) spans
  /\ (sumOf spans <=? 360 * num_of_nat (List.length spans))%num = true.
Proof.
  intros spans. pose proof (renderedSpans_bounds dims (Some sections)) as B.
  fold spans in B. split; [exact B|].
  destruct (sum_upper_bound 360 spans 0) as (total & E & HT).
  { eapply Forall_impl; [|exact B]. intros n (s & -> & H). exists s.
    split; [reflexivity | apply H]. }
  unfold sumOf. rewrite E.
  unfold num_of_nat. num_simpl. apply Qleb_le. rewrite Qred_correct. lra.
Qed.

(** C2, the claim as stated fails: two sections of 100 percent each are
    both rendered with a span of 360 degrees, 720 in all. *)
Lemma spans_exceed_360 :
  renderedSpans ringDims (Some twoWholes) = [Fin 360; Fin 360]
  /\ fst (Sections ringDims [] (Some twoWholes) false (VStr "butt"))
     = Some [ flatArc ringDims "red" 0 360; flatArc ringDims "blue" 360 360 ]
  /\ sumOf (renderedSpans ringDims (Some twoWholes)) = Fin 720
  /\ (sumOf (renderedSpans ringDims (Some twoWholes)) <=? 360)%num = false.
Proof. repeat split. Qed.

(** * Further properties of the code *)

(** ** [getArcAngle], [polarToCartesian] and [describeArc] *)

(** The numbers a path command holds, and those of a path. *)
Definition command_numbers (c : command) : list num :=
  match c with
  | MoveTo x y => [x; y]
  | ArcTo rx ry _ _ _ x y => [rx; ry; x; y]
  end.

Definition path_numbers (p : path) : list num := flat_map command_numbers p.

Lemma leb_values (m n : num) (a b : Q) :
  Num.has_value m a -> Num.has_value n b -> a <= b -> (m <=? n)%num = true.
Proof.
  destruct m as [| | |a'], n as [| | |b']; try contradiction.
  cbn [Num.has_value Num.leb]. intros Ha Hb H. apply Qleb_le.
  rewrite Ha, Hb. exact H.
Qed.

Lemma arcSpan_spec_monotone (p q : num) :
  (p <=? q)%num = true -> arcSpan_spec p <= arcSpan_spec q.
Proof.
  pose proof (arcSpan_spec_bounds p) as Bp.
  pose proof (arcSpan_spec_bounds q) as Bq.
  destruct p as [| | |a]; [discriminate| | |].
  - destruct q as [| | |b]; discriminate.
  - intros _. apply Bq.
  - destruct q as [| | |b]; try discriminate.
    + intros _. apply Bp.
    + cbn [Num.leb]. intros H. apply Qleb_le in H. cbn [arcSpan_spec] in *.
      destruct (Qltb a 0) eqn:Ea; [apply Bq|].
      apply Qltb_ge in Ea.
      replace (Qltb b 0) with false by (symmetry; apply Qltb_ge; lra).
      apply Q.min_le_compat_r. rewrite !degrees_of_percent. lra.
Qed.

(** X1.  [getArcAngle] is monotone: a larger percentage never gets a
    smaller span. *)
Theorem getArcAngle_monotone (p q : num) :
  (p <=? q)%num = true -> (getArcAngle p <=? getArcAngle q)%num = true.
Proof.
  intros H. eapply leb_values.
  - apply getArcAngle_value.
  - apply getArcAngle_value.
  - apply arcSpan_spec_monotone. exact H.
Qed.

Lemma getArcAngle_monotone_witness :
  (30 <=? 45)%num = true /\ (getArcAngle 30 <=? getArcAngle 45)%num = true.
Proof.
  split; [reflexivity|]. apply (getArcAngle_monotone 30 45). reflexivity.
Defined.

Lemma getArcAngle_canonical (p : num) :
  exists s, getArcAngle p = Fin (Qred s).
Proof.
  destruct p as [| | |a]; try (exists 0; reflexivity); try (exists 360; reflexivity).
  unfold getArcAngle. num_simpl.
  destruct (Qltb a 0); [exists 0; reflexivity|].
  change (Qeqb 100 0) with false. cbv iota. num_simpl.
  destruct (Qleb _ _); [eexists; reflexivity | exists 360; reflexivity].
Qed.

Lemma arcSpan_spec_full (p : num) :
  arcSpan_spec p == 360 <-> (100 <=? p)%num = true.
Proof.
  destruct p as [| | |a]; cbn [arcSpan_spec Num.leb].
  - split; [intros H; lra | discriminate].
  - split; reflexivity.
  - split; [intros H; lra | discriminate].
  - rewrite Qleb_le. destruct (Qltb a 0) eqn:L.
    + apply Qltb_lt in L. split; intros H; lra.
    + apply Qltb_ge in L.
      destruct (Q.min_spec (a / 100 * 360) 360) as [[H1 H2]|[H1 H2]];
        rewrite H2; rewrite degrees_of_percent in *; split; intros H; lra.
Qed.

(** X2.  The span is the full 360 degrees exactly from 100 percent on
    ([Infinity] included). *)
Theorem getArcAngle_saturates (p : num) :
  getArcAngle p = 360 <-> (100 <=? p)%num = true.
Proof.
  rewrite <- arcSpan_spec_full.
  pose proof (getArcAngle_value p) as V.
  destruct (getArcAngle_canonical p) as (s & E). rewrite E in *.
  cbn [Num.has_value] in V. split.
  - intros [= H]. rewrite <- V, H. reflexivity.
  - intros H. f_equal. change 360 with (Qred 360).
    apply Qred_complete. rewrite <- H, <- V. symmetry. apply Qred_correct.
Qed.

Section PathNumbers.

Variables Math_cos Math_sin : num -> num.

Lemma orb5_false (a b c d e : bool) :
  a || b || c || d || e = false ->
  a = false /\ b = false /\ c = false /\ d = false /\ e = false.
Proof. destruct a, b, c, d, e; cbn; intros H; try discriminate; auto. Qed.

(** X3.  [polarToCartesian] never returns a [NaN] coordinate, whatever
    the engine computes: a [NaN] argument gives the origin, and a
    coordinate that comes out as [NaN] (as with an infinite angle, or
    [Infinity - Infinity]) is replaced by 0. *)
Theorem polarToCartesian_never_NaN cx cy r angle :
  Num.isNaN (x (polarToCartesian Math_cos Math_sin cx cy r angle)) = false
  /\ Num.isNaN (y (polarToCartesian Math_cos Math_sin cx cy r angle)) = false
  /\ (Num.isNaN cx || Num.isNaN cy || Num.isNaN r || Num.isNaN angle = true ->
      polarToCartesian Math_cos Math_sin cx cy r angle = {| x := 0; y := 0 |}).
Proof.
  destruct (polarToCartesian_no_NaN Math_cos Math_sin cx cy r angle) as [Hx Hy].
  repeat split; try assumption.
  intros H. unfold polarToCartesian. rewrite H. reflexivity.
Qed.

(** X4.  No number of a path [describeArc] returns is [NaN]: neither a
    radius nor a coordinate, for any arguments and any engine. *)
Theorem describeArc_never_NaN cx cy r startAngle arcAngle :
  Forall (fun n => Num.isNaN n = false)
         (path_numbers (describeArc Math_cos Math_sin cx cy r startAngle arcAngle)).
Proof.
  unfold describeArc.
  destruct (_ || _) eqn:N; [repeat constructor|].
  apply orb5_false in N. destruct N as (_ & _ & Nr & _ & _).
  destruct (arcAngle <=? 0)%num; [repeat constructor|].
  destruct (arcAngle >=? double_359_9)%num; cbv zeta; cbn [path_numbers flat_map command_numbers app];
    repeat (constructor; try exact Nr; try apply polarToCartesian_no_NaN).
Qed.

End PathNumbers.

Lemma polarToCartesian_never_NaN_witness :
  (Num.isNaN 50 || Num.isNaN 50 || Num.isNaN NaN || Num.isNaN 0 = true)
  /\ polarToCartesian approx_cos approx_sin 50 50 NaN 0 = {| x := 0; y := 0 |}.
Proof.
  split; [reflexivity|].
  apply (polarToCartesian_never_NaN approx_cos approx_sin 50 50 NaN 0).
  reflexivity.
Defined.

(** ** The normalised dimensions *)

(** [Math.max(p || d, floor)] of a number that is already in range. *)
Lemma max_prop_in_range (p d floor : Q) :
  floor <= p -> (p == 0 -> d <= floor /\ p <= floor) ->
  Num.has_value (Num.max (prop_or (Some (Fin p)) d) floor) p.
Proof.
  intros H H0. unfold prop_or, Num.or_else. cbn [Num.truthy].
  destruct (Qeqb p 0) eqn:E; cbn [negb]; num_simpl.
  - apply Qeqb_eq in E. specialize (H0 E).
    destruct (Qleb d floor) eqn:L; cbn [Num.has_value].
    + lra.
    + apply Qleb_gt in L. lra.
  - destruct (Qleb p floor) eqn:L; cbn [Num.has_value].
    + apply Qleb_le in L. lra.
    + reflexivity.
Qed.

Lemma pieDimensions_dividerSize radiusProp innerRadiusProp dividerSizeProp :
  (0 <=? dividerSize (pieDimensions radiusProp innerRadiusProp dividerSizeProp))%num
  = true.
Proof.
  unfold pieDimensions. cbn [dividerSize].
  destruct (max_with_floor (prop_or dividerSizeProp 0) 0 (prop_or_not_NaN _ _))
    as [[_ ->]|(v & -> & H)]; [reflexivity|].
  cbn [Num.leb]. apply Qleb_le. exact H.
Qed.

Lemma pieDimensions_innerRadius radiusProp innerRadiusProp dividerSizeProp :
  (0 <=? innerRadius (pieDimensions radiusProp innerRadiusProp dividerSizeProp))%num
  = true.
Proof.
  assert (radiusProp = Some PInf \/ radiusProp <> Some PInf) as [->|HR].
  { destruct radiusProp as [[| | |q]|];
      (left; reflexivity) || (right; discriminate). }
  - unfold pieDimensions. cbn [innerRadius].
    destruct (max_with_floor (prop_or innerRadiusProp 0) 0 (prop_or_not_NaN _ _))
      as [[_ ->]|(v & -> & H)]; [reflexivity|].
    num_simpl. apply Qleb_le. exact H.
  - destruct (pieDimensions_finite radiusProp innerRadiusProp dividerSizeProp HR)
      as (R & F & _ & -> & _ & _ & HF).
    cbn [Num.leb]. apply Qleb_le. apply HF.
Qed.

Lemma pieDimensions_radius radiusProp innerRadiusProp dividerSizeProp :
  (10 <=? radius (pieDimensions radiusProp innerRadiusProp dividerSizeProp))%num
  = true.
Proof.
  unfold pieDimensions. cbn [radius].
  destruct (max_with_floor (prop_or radiusProp 50) 10 (prop_or_not_NaN _ _))
    as [[_ ->]|(v & -> & H)]; [reflexivity|].
  cbn [Num.leb]. apply Qleb_le. exact H.
Qed.

(** X5.  Whatever the props are (missing, [NaN], negative, infinite),
    the normalised radius is a number of at least 10, and the normalised
    inner radius and divider size are numbers of at least 0.  When the
    radius prop is at most 2^53 (or is missing, [NaN] or [-Infinity]),
    so that [validRadius - 1] is computed exactly, the width of the ring
    is at least 1 and at most the radius. *)
Theorem pieDimensions_ranges radiusProp innerRadiusProp dividerSizeProp :
  let dims := pieDimensions radiusProp innerRadiusProp dividerSizeProp in
  (10 <=? radius dims)%num = true
  /\ (0 <=? innerRadius dims)%num = true
  /\ (0 <=? dividerSize dims)%num = true
  /\ (radiusProp <> Some PInf ->
      (forall q, radiusProp = Some (Fin q) -> q <= inject_Z (2 ^ 53)) ->
      (1 <=? width dims)%num = true /\ (width dims <=? radius dims)%num = true).
Proof.
  intros dims. subst dims.
  split; [apply pieDimensions_radius|].
  split; [apply pieDimensions_innerRadius|].
  split; [apply pieDimensions_dividerSize|].
  intros HR _.
  destruct (pieDimensions_finite radiusProp innerRadiusProp dividerSizeProp HR)
    as (R & F & -> & _ & EW & HR10 & HF).
  destruct (width _) as [| | |W]; try contradiction.
  cbn [Num.has_value] in EW. cbn [Num.leb].
  split; apply Qleb_le; rewrite EW; lra.
Qed.

Lemma pieDimensions_ranges_witness :
  Some (Fin 50) <> Some PInf
  /\ (forall q, Some (Fin 50) = Some (Fin q) -> q <= inject_Z (2 ^ 53))
  /\ (1 <=? width (pieDimensions (Some (Fin 50)) (Some (Fin 80)) None))%num = true
  /\ (width (pieDimensions (Some (Fin 50)) (Some (Fin 80)) None)
      <=? radius (pieDimensions (Some (Fin 50)) (Some (Fin 80)) None))%num = true.
Proof.
  assert (H : forall q, Some (Fin 50) = Some (Fin q) -> q <= inject_Z (2 ^ 53)).
  { intros q [= <-]. unfold Qle. simpl. lia. }
  split; [discriminate|]. split; [exact H|].
  apply (proj2 (proj2 (proj2
           (pieDimensions_ranges (Some (Fin 50)) (Some (Fin 80)) None)))).
  - discriminate.
  - exact H.
Defined.

(** X6.  Props that are already in range pass through unchanged: a
    radius of at least 10, an inner radius between 0 and the radius less
    1 and a divider size of at least 0 are the normalised values, and the
    width is their difference. *)
Theorem pieDimensions_in_range (R I D : Q) :
  10 <= R -> 0 <= I <= R - 1 -> 0 <= D ->
  let dims := pieDimensions (Some (Fin R)) (Some (Fin I)) (Some (Fin D)) in
  Num.has_value (radius dims) R
  /\ Num.has_value (innerRadius dims) I
  /\ Num.has_value (width dims) (R - I)
  /\ Num.has_value (dividerSize dims) D.
Proof.
  intros HR HI HD dims. subst dims. unfold pieDimensions.
  cbn [radius innerRadius width dividerSize].
  assert (VR : Num.has_value (Num.max (prop_or (Some (Fin R)) 50) 10) R).
  { apply max_prop_in_range; [exact HR | intros E; lra]. }
  assert (VI : Num.has_value (Num.max (prop_or (Some (Fin I)) 0) 0) I).
  { apply max_prop_in_range; [apply HI | intros E; lra]. }
  assert (VD : Num.has_value (Num.max (prop_or (Some (Fin D)) 0) 0) D).
  { apply max_prop_in_range; [exact HD | intros E; lra]. }
  destruct (Num.max (prop_or (Some (Fin R)) 50) 10) as [| | |r]; try contradiction.
  destruct (Num.max (prop_or (Some (Fin I)) 0) 0) as [| | |i]; try contradiction.
  cbn [Num.has_value] in VR, VI. num_simpl.
  assert (L : Qleb i (Qred (r - 1)) = true).
  { apply Qleb_le. rewrite Qred_correct, VR, VI. lra. }
  rewrite L. num_simpl. rewrite Qred_correct, VR, VI.
  repeat split; try reflexivity. exact VD.
Qed.

Lemma pieDimensions_in_range_witness :
  10 <= 50 /\ 0 <= 25 <= 50 - 1 /\ 0 <= 2
  /\ Num.has_value (width (pieDimensions (Some (Fin 50)) (Some (Fin 25))
                                         (Some (Fin 2)))) (50 - 25).
Proof.
  assert (H1 : 10 <= 50) by (unfold Qle; simpl; lia).
  assert (H2 : 0 <= 25 <= 50 - 1) by (split; unfold Qle; simpl; lia).
  assert (H3 : 0 <= 2) by (unfold Qle; simpl; lia).
  repeat (split; [assumption|]).
  apply (pieDimensions_in_range 50 25 2 H1 H2 H3).
Defined.

(** ** [Sections] *)

(** The entries of the filtered array the callback does not skip
    (line 142): those whose span is not below 0.1 degrees. *)
Definition drawnEntries (valid : list (num * value)) : list (num * value) :=
  filter (fun v => visibleSpan (getArcAngle (fst v))) valid.

(** What the test of line 142 comes to as a test on the percentage: the
    span is 3.6 times the percentage, so a percentage of at least 0.0278
    gives a span of at least 0.1 degrees and is drawn, and a percentage
    of at most 0.0277 gives a span below 0.1 and is skipped.  In between,
    around 1/36, the rounding of the product decides. *)
Definition spanTest (test : num -> bool) : Prop :=
  (forall p, (278 # 10000 <=? p)%num = true -> test p = true)
  /\ (forall p, (p <=? 277 # 10000)%num = true -> test p = false).

Lemma visibleSpan_spanTest : spanTest (fun p => visibleSpan (getArcAngle p)).
Proof.
  destruct double_0_1_bounds as [B1 B2].
  split; intros p H; pose proof (getArcAngle_value p) as V; unfold visibleSpan;
    destruct p as [| | |a]; try discriminate; try reflexivity;
    destruct (getArcAngle a) as [| | |s]; try contradiction;
    cbn [Num.has_value arcSpan_spec Num.ltb Num.leb] in *;
    apply Qleb_le in H.
  - apply negb_true_iff, Qltb_ge.
    replace (Qltb a 0) with false in V by (symmetry; apply Qltb_ge; lra).
    destruct (Q.min_spec (a / 100 * 360) 360) as [[_ E]|[_ E]];
      rewrite E, ?degrees_of_percent in V; lra.
  - apply negb_false_iff, Qltb_lt.
    revert V. destruct (Qltb a 0) eqn:L; intros V; [lra|].
    pose proof (Q.le_min_l (a / 100 * 360) 360) as M.
    pose proof (degrees_of_percent a) as D. lra.
Qed.

Lemma sectionArcs_colors dims sd rd cap valid startValue painted :
  map color (filterBoolean (fst (sectionArcs dims sd rd cap valid startValue painted)))
  = map snd (drawnEntries valid).
Proof.
  revert startValue painted.
  induction valid as [|[p c] rest IH]; intros startValue painted; [reflexivity|].
  cbn [sectionArcs drawnEntries filter fst]. unfold visibleSpan at 1.
  destruct (getArcAngle p <? double_0_1)%num; cbn [negb].
  - specialize (IH (startValue + p)%num painted).
    destruct (sectionArcs _ _ _ _ rest _ _). exact IH.
  - match goal with
    | |- context [sectionArcs _ _ _ _ rest ?s ?q] =>
        specialize (IH s q); destruct (sectionArcs _ _ _ _ rest s q)
    end.
    cbn [fst filterBoolean map color snd] in *. rewrite IH. reflexivity.
Qed.

Lemma Sections_Some dims painted sections rd cap arcs :
  fst (Sections dims painted (Some sections) rd cap) = Some arcs ->
  validSections sections <> []
  /\ Sections dims painted (Some sections) rd cap
     = (Some (filterBoolean
                (fst (sectionArcs dims
                        (shouldShowDivider (validSections sections) (dividerSize dims))
                        rd cap (validSections sections) 0 painted))),
        snd (sectionArcs dims
               (shouldShowDivider (validSections sections) (dividerSize dims))
               rd cap (validSections sections) 0 painted)).
Proof.
  unfold Sections.
  destruct (List.length sections =? 0)%nat; [discriminate|].
  destruct (validSections sections) as [|v rest] eqn:E; [discriminate|].
  cbn [List.length Nat.eqb]. intros _. split; [discriminate|].
  destruct (sectionArcs _ _ _ _ _ _ _). reflexivity.
Qed.

(** X7.  [Sections] returns [null] exactly when the prop is missing or
    no entry passes the filter (an empty array included), and then it
    leaves [paintedSections] as it found it. *)
Theorem Sections_null dims painted sections rd cap :
  (fst (Sections dims painted sections rd cap) = None <->
   match sections with
   | None => True
   | Some entries => validSections entries = []
   end)
  /\ (fst (Sections dims painted sections rd cap) = None ->
      snd (Sections dims painted sections rd cap) = painted).
Proof.
  unfold Sections. destruct sections as [entries|]; [|split; [tauto | reflexivity]].
  destruct (List.length entries =? 0)%nat eqn:L.
  { rewrite (validSections_length_zero _ L). split; [tauto | reflexivity]. }
  destruct (validSections entries) as [|v rest]; cbn [List.length Nat.eqb].
  - split; [tauto | reflexivity].
  - destruct (sectionArcs _ _ _ _ _ _ _). cbn [fst snd].
    split; [split; discriminate | discriminate].
Qed.

Lemma Sections_null_witness :
  fst (Sections ringDims [] (Some [Some minusFive; None]) true (VStr "round")) = None
  /\ snd (Sections ringDims [] (Some [Some minusFive; None]) true (VStr "round")) = [].
Proof.
  split; [reflexivity|].
  apply (proj2 (Sections_null ringDims [] (Some [Some minusFive; None]) true
                              (VStr "round"))).
  reflexivity.
Defined.

(** X8.  [Sections] draws one arc for each entry that passes the filter
    and the span test of line 142, in the order of the array and in the
    entry's color; the span test is a test on the percentage that draws
    every percentage of at least 0.0278 and skips every percentage of at
    most 0.0277. *)
Theorem Sections_draws_entries dims painted sections rd cap arcs :
  fst (Sections dims painted (Some sections) rd cap) = Some arcs ->
  exists test,
    spanTest test
    /\ map color arcs
       = map snd (filter (fun v => test (fst v)) (validSections sections)).
Proof.
  intros H. destruct (Sections_Some _ _ _ _ _ _ H) as [_ E].
  rewrite E in H. cbn [fst] in H. injection H as <-.
  exists (fun p => visibleSpan (getArcAngle p)).
  split; [exact visibleSpan_spanTest | apply sectionArcs_colors].
Qed.

Lemma Sections_draws_entries_witness :
  fst (Sections ringDims []
         (Some [entry 50 "red"; entry (1 # 64) "grey"; Some minusFive;
                entry 25 "blue"]) false (VStr "butt"))
  = Some [flatArc ringDims "red" 0 180; flatArc ringDims "blue" (28809 # 160) 90]
  /\ exists test,
      spanTest test
      /\ map color [flatArc ringDims "red" 0 180;
                    flatArc ringDims "blue" (28809 # 160) 90]
         = map snd (filter (fun v => test (fst v))
                           (validSections
                              [entry 50 "red"; entry (1 # 64) "grey"; Some minusFive;
                               entry 25 "blue"])).
Proof.
  split; [reflexivity|].
  apply (Sections_draws_entries ringDims []
           [entry 50 "red"; entry (1 # 64) "grey"; Some minusFive; entry 25 "blue"]
           false (VStr "butt")).
  reflexivity.
Defined.

(** What the callback pushes for an entry. *)
Definition paintedEntry (s : PaintedSection) : num * value :=
  (painted_percentage s, painted_color s).

Lemma sectionArcs_not_painted dims sd cap valid startValue painted :
  snd (sectionArcs dims sd false cap valid startValue painted) = painted.
Proof.
  revert startValue painted.
  induction valid as [|[p c] rest IH]; intros startValue painted; [reflexivity|].
  cbn [sectionArcs].
  destruct (getArcAngle p <? double_0_1)%num.
  - specialize (IH (startValue + p)%num painted).
    destruct (sectionArcs _ _ _ _ rest _ _). exact IH.
  - specialize (IH (startValue + p)%num painted).
    destruct (sectionArcs _ _ _ _ rest _ _). exact IH.
Qed.

Lemma sectionArcs_painted dims sd cap valid startValue painted :
  exists new,
    snd (sectionArcs dims sd true cap valid startValue painted) = painted ++ new
    /\ map paintedEntry new = drawnEntries valid
    /\ Forall (fun s => painted_arcAngle s = getArcAngle (painted_percentage s)) new.
Proof.
  revert startValue painted.
  induction valid as [|[p c] rest IH]; intros startValue painted.
  - exists []. cbn. rewrite app_nil_r. repeat split. constructor.
  - cbn [sectionArcs drawnEntries filter fst]. unfold visibleSpan at 1.
    destruct (getArcAngle p <? double_0_1)%num; cbn [negb].
    + destruct (IH (startValue + p)%num painted) as (new & E & M & F).
      destruct (sectionArcs _ _ _ _ rest _ _). exists new. auto.
    + match goal with
      | |- context [sectionArcs _ _ _ _ rest ?s ?q] =>
          destruct (IH s q) as (new & E & M & F);
          destruct (sectionArcs _ _ _ _ rest s q)
      end.
      cbn [snd] in *. eexists (_ :: new). rewrite E, <- app_assoc.
      split; [reflexivity|]. split.
      * cbn [map paintedEntry painted_percentage painted_color].
        unfold drawnEntries in M. rewrite M. reflexivity.
      * constructor; [reflexivity | exact F].
Qed.

Lemma Sections_flat_caps dims painted sections cap :
  snd (Sections dims painted sections false cap) = painted.
Proof.
  unfold Sections. destruct sections as [entries|]; [|reflexivity].
  destruct (_ =? _)%nat; [reflexivity|].
  destruct (_ =? _)%nat; [reflexivity|].
  pose proof (sectionArcs_not_painted dims
                (shouldShowDivider (validSections entries) (dividerSize dims))
                cap (validSections entries) 0 painted) as H.
  destruct (sectionArcs _ _ false _ _ _ _). exact H.
Qed.

Lemma Sections_round_caps dims painted sections cap :
  exists new,
    snd (Sections dims painted sections true cap) = painted ++ new
    /\ map paintedEntry new
       = match sections with
         | Some entries => drawnEntries (validSections entries)
         | None => []
         end
    /\ Forall (fun s => painted_arcAngle s = getArcAngle (painted_percentage s)) new.
Proof.
  unfold Sections. destruct sections as [entries|].
  2:{ exists []. rewrite app_nil_r. repeat split. constructor. }
  destruct (List.length entries =? 0)%nat eqn:L.
  { rewrite (validSections_length_zero _ L).
    exists []. rewrite app_nil_r. repeat split. constructor. }
  destruct (List.length (validSections entries) =? 0)%nat eqn:L'.
  { destruct (validSections entries); [|discriminate].
    exists []. rewrite app_nil_r. repeat split. constructor. }
  destruct (sectionArcs_painted dims
              (shouldShowDivider (validSections entries) (dividerSize dims))
              cap (validSections entries) 0 painted) as (new & E & M & F).
  destruct (sectionArcs _ _ true _ _ _ _). exists new. auto.
Qed.

(** X9.  With flat caps [Sections] leaves [paintedSections] untouched.
    With round caps it appends one record for each entry that passes the
    filter and the span test of line 142 (which draws every percentage of
    at least 0.0278 and skips every percentage of at most 0.0277), in
    order, holding the entry's percentage and color and the span
    [getArcAngle] gives it, before the divider shrink; records already in
    the array stay in front. *)
Theorem Sections_painted dims painted sections cap :
  snd (Sections dims painted sections false cap) = painted
  /\ exists test new,
      spanTest test
      /\ snd (Sections dims painted sections true cap) = painted ++ new
      /\ map paintedEntry new
         = match sections with
           | Some entries =>
               filter (fun v => test (fst v)) (validSections entries)
           | None => []
           end
      /\ Forall (fun s => painted_arcAngle s = getArcAngle (painted_percentage s)) new.
Proof.
  split.
  - apply Sections_flat_caps.
  - destruct (Sections_round_caps dims painted sections cap) as (new & H).
    exists (fun p => visibleSpan (getArcAngle p)), new.
    split; [exact visibleSpan_spanTest | exact H].
Qed.

(** X10.  When exactly one entry passes the filter the arc starts at 0
    with the full span of the entry, whatever the divider size is: no
    shrink is applied, and [RoundDividers] draws nothing. *)
Theorem single_section dims sections rd cap percentage color backgroundColor visible :
  validSections sections = [(percentage, color)] ->
  fst (Sections dims [] (Some sections) rd cap)
  = Some (filterBoolean [sectionElement dims false cap 0 percentage color])
  /\ RoundDividers dims (snd (Sections dims [] (Some sections) rd cap))
                   backgroundColor visible
     = Normal None.
Proof.
  intros H. unfold Sections.
  destruct (List.length sections =? 0)%nat eqn:L.
  { rewrite (validSections_length_zero _ L) in H. discriminate. }
  rewrite H. cbn [List.length Nat.eqb shouldShowDivider Nat.ltb Nat.leb andb].
  cbn [sectionArcs]. unfold sectionElement.
  destruct (getArcAngle percentage <? double_0_1)%num; cbn [fst snd].
  - split; reflexivity.
  - split; [reflexivity|]. destruct rd; reflexivity.
Qed.

Lemma single_section_witness :
  validSections [entry 30 "red"; Some minusFive] = [(Fin 30, VStr "red")]
  /\ fst (Sections (pieDimensions (Some (Fin 50)) (Some (Fin 25)) (Some (Fin 5))) []
                   (Some [entry 30 "red"; Some minusFive]) true (VStr "round"))
     = Some (filterBoolean
               [sectionElement (pieDimensions (Some (Fin 50)) (Some (Fin 25))
                                              (Some (Fin 5)))
                               false (VStr "round") 0 30 (VStr "red")]).
Proof.
  split; [reflexivity|].
  apply (single_section (pieDimensions (Some (Fin 50)) (Some (Fin 25)) (Some (Fin 5)))
           [entry 30 "red"; Some minusFive] true (VStr "round") 30 (VStr "red")
           (VStr "#fff") true).
  reflexivity.
Defined.

(** ** The angles of the section arcs *)

Lemma nonneg_add (m n : num) :
  (0 <=? m)%num = true -> positive n -> (0 <=? m + n)%num = true.
Proof.
  intros Hm [->|(q & -> & Hq)].
  - destruct m; try discriminate; reflexivity.
  - destruct m as [| | |a]; try discriminate; [reflexivity|].
    cbn [Num.leb] in Hm. apply Qleb_le in Hm. num_simpl.
    apply Qleb_le. rewrite Qred_correct. lra.
Qed.

Lemma nonneg_degrees (m : num) :
  (0 <=? m)%num = true -> (0 <=? m / 100 * 360)%num = true.
Proof.
  destruct m as [| | |a]; try discriminate; [reflexivity|].
  cbn [Num.leb]. intros H. apply Qleb_le in H. num_simpl.
  change (Qeqb 100 0) with false. cbv iota. num_simpl.
  apply Qleb_le. rewrite !Qred_correct, degrees_of_percent. lra.
Qed.

Lemma nonneg_not_NaN (n : num) : (0 <=? n)%num = true -> Num.isNaN n = false.
Proof. destruct n; try discriminate; reflexivity. Qed.

Lemma sectionArcs_angles dims sd rd cap valid startValue painted :
  (sd = true -> (dividerSize dims >? 0)%num = true) ->
  Forall positive (map fst valid) ->
  (0 <=? startValue)%num = true ->
  Forall (fun arc =>
            (0 <=? startAngle arc)%num = true
            /\ exists span, arcAngle arc = Fin span /\ 1 # 10 <= span <= 360)
         (filterBoolean (fst (sectionArcs dims sd rd cap valid startValue painted))).
Proof.
  intros Hd Hv. revert startValue painted.
  destruct double_0_1_bounds as [B1 B2].
  induction valid as [|[p c] rest IH]; intros startValue painted Hs; [constructor|].
  cbn [map fst] in Hv. apply Forall_cons_iff in Hv. destruct Hv as [Hp Hv].
  cbn [sectionArcs].
  assert (Hs' : (0 <=? startValue + p)%num = true) by (apply nonneg_add; assumption).
  destruct (getArcAngle p <? double_0_1)%num eqn:V.
  - specialize (IH Hv (startValue + p)%num painted Hs').
    destruct (sectionArcs _ _ _ _ rest _ _). exact IH.
  - match goal with
    | |- context [sectionArcs _ _ _ _ rest ?s ?q] =>
        specialize (IH Hv s q Hs'); destruct (sectionArcs _ _ _ _ rest s q)
    end.
    cbn [fst filterBoolean]. constructor; [|exact IH].
    cbn [startAngle arcAngle].
    pose proof (nonneg_degrees startValue Hs) as Ha.
    destruct (getArcAngle_fin p) as (w & Ew & Hw). rewrite Ew in *.
    cbn [Num.ltb] in V. apply Qltb_ge in V.
    destruct sd.
    + specialize (Hd eq_refl). unfold Num.gtb in Hd.
      destruct (dividerSize dims) as [| | |d]; try discriminate.
      * split.
        -- cbn [Num.or_else Num.truthy]. destruct (_ / _ * _)%num; try discriminate; reflexivity.
        -- exists double_0_1. split; [reflexivity | lra].
      * cbn [Num.ltb] in Hd. apply Qltb_lt in Hd.
        unfold Num.or_else. cbn [Num.truthy].
        replace (Qeqb d 0) with false by (symmetry; apply Qeqb_neq; lra).
        cbn [negb]. split.
        -- apply nonneg_add; [exact Ha|]. right. exists d. auto.
        -- num_simpl. destruct (Qleb (Qred (w - d)) double_0_1) eqn:L.
           ++ exists double_0_1. split; [reflexivity | lra].
           ++ apply Qleb_gt in L. rewrite Qred_correct in L.
              exists (Qred (w - d)). split; [reflexivity|].
              rewrite Qred_correct. lra.
    + split; [exact Ha|]. exists w. split; [reflexivity | lra].
Qed.

Lemma shouldShowDivider_positive {A} (l : list A) (dividerSize : num) :
  shouldShowDivider l dividerSize = true -> (dividerSize >? 0)%num = true.
Proof.
  unfold shouldShowDivider. intros H. apply andb_prop in H. apply H.
Qed.

(** X11.  Every arc [Sections] returns, with or without the divider
    shrink and whatever the dimensions are, has a span that is a number
    between 0.1 and 360 and a start angle that is a number of at least 0
    (or [Infinity]). *)
Theorem Sections_arc_angles dims painted sections rd cap arcs :
  fst (Sections dims painted (Some sections) rd cap) = Some arcs ->
  Forall (fun arc =>
            (0 <=? startAngle arc)%num = true
            /\ exists span, arcAngle arc = Fin span /\ 1 # 10 <= span <= 360)
         arcs.
Proof.
  intros H. destruct (Sections_Some _ _ _ _ _ _ H) as [_ E].
  rewrite E in H. cbn [fst] in H. injection H as <-.
  apply sectionArcs_angles.
  - apply shouldShowDivider_positive.
  - apply validSections_positive.
  - reflexivity.
Qed.

Lemma Sections_arc_angles_witness :
  fst (Sections (pieDimensions (Some (Fin 50)) (Some (Fin 25)) (Some (Fin 5))) []
                (Some redBlueHalves) false (VStr "butt"))
  = Some [ flatArc (pieDimensions (Some (Fin 50)) (Some (Fin 25)) (Some (Fin 5)))
                   "red" 5 175;
           flatArc (pieDimensions (Some (Fin 50)) (Some (Fin 25)) (Some (Fin 5)))
                   "blue" 185 175 ]
  /\ Forall (fun arc =>
               (0 <=? startAngle arc)%num = true
               /\ exists span, arcAngle arc = Fin span /\ 1 # 10 <= span <= 360)
            [ flatArc (pieDimensions (Some (Fin 50)) (Some (Fin 25)) (Some (Fin 5)))
                      "red" 5 175;
              flatArc (pieDimensions (Some (Fin 50)) (Some (Fin 25)) (Some (Fin 5)))
                      "blue" 185 175 ].
Proof.
  split; [reflexivity|].
  apply (Sections_arc_angles
           (pieDimensions (Some (Fin 50)) (Some (Fin 25)) (Some (Fin 5))) []
           redBlueHalves false (VStr "butt")).
  reflexivity.
Defined.

(** ** The order of the section arcs *)

(** Numbers in ascending order: each is at most the next. *)
Fixpoint ascending (l : list num) : Prop :=
  match l with
  | a :: (b :: _) as rest => (a <=? b)%num = true /\ ascending rest
  | _ => True
  end.

Lemma leb_trans (a b c : num) :
  (a <=? b)%num = true -> (b <=? c)%num = true -> (a <=? c)%num = true.
Proof.
  destruct a as [| | |a], b as [| | |b], c as [| | |c];
    try discriminate; try reflexivity.
  cbn [Num.leb]. rewrite !Qleb_le. intros H1 H2. lra.
Qed.

Lemma leb_refl (a : num) : Num.isNaN a = false -> (a <=? a)%num = true.
Proof.
  destruct a as [| | |a]; try discriminate; try reflexivity.
  intros _. cbn [Num.leb]. apply Qleb_le. lra.
Qed.

Lemma degrees_monotone (m n : num) :
  (0 <=? m)%num = true -> (m <=? n)%num = true ->
  (m / 100 * 360 <=? n / 100 * 360)%num = true.
Proof.
  destruct m as [| | |a]; try discriminate.
  - destruct n; try discriminate. reflexivity.
  - destruct n as [| | |b]; try discriminate.
    + intros _ _. reflexivity.
    + cbn [Num.leb]. rewrite !Qleb_le. intros H0 H. num_simpl.
      change (Qeqb 100 0) with false. cbv iota. num_simpl.
      apply Qleb_le. rewrite !Qred_correct, !degrees_of_percent. lra.
Qed.

Lemma add_monotone (m n d : num) :
  (0 <=? m)%num = true -> (0 <=? d)%num = true -> (m <=? n)%num = true ->
  (m + d <=? n + d)%num = true.
Proof.
  destruct m as [| | |a], n as [| | |b], d as [| | |c];
    try discriminate; try reflexivity.
  cbn [Num.leb]. rewrite !Qleb_le. intros _ _ H. num_simpl.
  apply Qleb_le. rewrite !Qred_correct. lra.
Qed.

Lemma add_positive_ge (m n : num) :
  (0 <=? m)%num = true -> positive n -> (m <=? m + n)%num = true.
Proof.
  intros Hm [->|(q & -> & Hq)].
  - destruct m; try discriminate; reflexivity.
  - destruct m as [| | |a]; try discriminate; [reflexivity|].
    num_simpl. apply Qleb_le. rewrite Qred_correct. lra.
Qed.

Lemma ascending_cons (a : num) (l : list num) :
  Forall (fun b => (a <=? b)%num = true) l -> ascending l -> ascending (a :: l).
Proof.
  destruct l as [|b rest]; [trivial|].
  intros H A. apply Forall_cons_iff in H. split; [apply H | exact A].
Qed.

(** The start angle line 138 and line 149 give an arc drawn at
    [startValue]. *)
Definition arcStart (dims : Dimensions) (showDividers : bool) (startValue : num)
  : num :=
  if showDividers
  then (startValue / 100 * 360 + Num.or_else (dividerSize dims) 0)%num
  else (startValue / 100 * 360)%num.

Lemma arcStart_monotone dims sd (m n : num) :
  (sd = true -> (dividerSize dims >? 0)%num = true) ->
  (0 <=? m)%num = true -> (m <=? n)%num = true ->
  (arcStart dims sd m <=? arcStart dims sd n)%num = true.
Proof.
  intros Hd Hm H. unfold arcStart. destruct sd.
  - apply add_monotone.
    + apply nonneg_degrees. exact Hm.
    + specialize (Hd eq_refl). unfold Num.gtb in Hd.
      destruct (dividerSize dims) as [| | |d]; try discriminate; [reflexivity|].
      cbn [Num.ltb] in Hd. apply Qltb_lt in Hd.
      unfold Num.or_else. cbn [Num.truthy].
      replace (Qeqb d 0) with false by (symmetry; apply Qeqb_neq; lra).
      cbn [negb Num.leb]. apply Qleb_le. lra.
    + apply degrees_monotone; assumption.
  - apply degrees_monotone; assumption.
Qed.

Lemma arcStart_not_NaN dims sd (m : num) :
  (sd = true -> (dividerSize dims >? 0)%num = true) ->
  (0 <=? m)%num = true -> Num.isNaN (arcStart dims sd m) = false.
Proof.
  intros Hd Hm. apply nonneg_not_NaN.
  eapply leb_trans; [apply (nonneg_degrees m Hm)|].
  unfold arcStart. destruct sd; [|apply leb_refl, nonneg_not_NaN, nonneg_degrees, Hm].
  specialize (Hd eq_refl). unfold Num.gtb in Hd.
  destruct (dividerSize dims) as [| | |d]; try discriminate.
  - cbn [Num.or_else Num.truthy].
    pose proof (nonneg_degrees m Hm) as H.
    destruct (m / 100 * 360)%num; try discriminate; reflexivity.
  - cbn [Num.ltb] in Hd. apply Qltb_lt in Hd.
    unfold Num.or_else. cbn [Num.truthy].
    replace (Qeqb d 0) with false by (symmetry; apply Qeqb_neq; lra).
    cbn [negb]. apply add_positive_ge; [apply nonneg_degrees, Hm|].
    right. exists d. auto.
Qed.

Lemma sectionArcs_ascending dims sd rd cap valid startValue painted :
  (sd = true -> (dividerSize dims >? 0)%num = true) ->
  Forall positive (map fst valid) ->
  (0 <=? startValue)%num = true ->
  Forall (fun a => (arcStart dims sd startValue <=? a)%num = true)
         (map startAngle
              (filterBoolean
                 (fst (sectionArcs dims sd rd cap valid startValue painted))))
  /\ ascending
       (map startAngle
            (filterBoolean
               (fst (sectionArcs dims sd rd cap valid startValue painted)))).
Proof.
  intros Hd Hv. revert startValue painted.
  induction valid as [|[p c] rest IH]; intros startValue painted Hs.
  { split; [constructor | exact I]. }
  cbn [map fst] in Hv. apply Forall_cons_iff in Hv. destruct Hv as [Hp Hv].
  assert (Hs' : (0 <=? startValue + p)%num = true) by (apply nonneg_add; assumption).
  assert (Hm : (arcStart dims sd startValue <=? arcStart dims sd (startValue + p))%num
               = true).
  { apply arcStart_monotone; try assumption. apply add_positive_ge; assumption. }
  cbn [sectionArcs].
  destruct (getArcAngle p <? double_0_1)%num.
  - destruct (IH Hv (startValue + p)%num painted Hs') as [F A].
    destruct (sectionArcs _ _ _ _ rest _ _). cbn [fst] in *. split; [|exact A].
    eapply Forall_impl; [|exact F]. intros a. apply leb_trans. exact Hm.
  - match goal with
    | |- context [sectionArcs _ _ _ _ rest ?s ?q] =>
        destruct (IH Hv s q Hs') as [F A]; destruct (sectionArcs _ _ _ _ rest s q)
    end.
    cbn [fst filterBoolean map startAngle] in *.
    change (if sd
            then (startValue / 100 * 360 + Num.or_else (dividerSize dims) 0)%num
            else (startValue / 100 * 360)%num)
      with (arcStart dims sd startValue).
    assert (F' : Forall (fun a => (arcStart dims sd startValue <=? a)%num = true)
                        (map startAngle (filterBoolean l))).
    { eapply Forall_impl; [|exact F]. intros a. apply leb_trans. exact Hm. }
    split.
    + constructor; [|exact F'].
      apply leb_refl, arcStart_not_NaN; assumption.
    + apply ascending_cons; assumption.
Qed.

(** X12.  The arcs [Sections] returns come in ascending order of their
    start angles, with or without the divider shift: no arc starts
    before the arc drawn before it. *)
Theorem Sections_arcs_ascending dims painted sections rd cap arcs :
  fst (Sections dims painted (Some sections) rd cap) = Some arcs ->
  ascending (map startAngle arcs).
Proof.
  intros H. destruct (Sections_Some _ _ _ _ _ _ H) as [_ E].
  rewrite E in H. cbn [fst] in H. injection H as <-.
  apply sectionArcs_ascending.
  - apply shouldShowDivider_positive.
  - apply validSections_positive.
  - reflexivity.
Qed.

(** ** [RoundDividers] and the errors of [Pie] *)

(** A painted section the divider pass does not skip (line 185). *)
Definition drawable (s : PaintedSection) : Prop :=
  truthy (painted_color s) = true
  /\ Num.isNaN (painted_startAngle s) = false
  /\ Num.isNaN (painted_arcAngle s) = false.

(** A stroke of the divider pass: one degree wide, flat, drawn five
    units thick. *)
Definition dividerStroke (arc : ArcProps) : Prop :=
  arcAngle arc = 1 /\ isBezian arc = true /\ strokeCap arc = VStr "butt".

Lemma dividerStrokes_flat_map dims backgroundColor section offset start n :
  List.length (flat_map (dividerStrokes dims backgroundColor section offset)
                        (seq start n))
  = (2 * n)%nat
  /\ Forall dividerStroke
            (flat_map (dividerStrokes dims backgroundColor section offset)
                      (seq start n)).
Proof.
  revert start. induction n as [|n IH]; intros start.
  - split; [reflexivity | constructor].
  - cbn [seq flat_map]. destruct (IH (S start)) as [L F]. split.
    + rewrite length_app, L. cbn [dividerStrokes List.length]. lia.
    + apply Forall_app. split; [|exact F].
      repeat constructor.
Qed.

Lemma dividerArcs_drawn dims backgroundColor offset painted n :
  Forall drawable painted ->
  arrayLength (dividerSize dims + 2)%num = Some n ->
  exists arcs,
    dividerArcs dims backgroundColor offset painted = Normal arcs
    /\ List.length arcs = (2 * n * List.length painted)%nat
    /\ Forall dividerStroke arcs.
Proof.
  intros H A. induction H as [|s rest (Hc & Hs & Ha) _ (arcs & E & L & F)].
  - exists []. split; [reflexivity|]. split; [cbn; lia | constructor].
  - cbn [dividerArcs]. rewrite Hc, Hs, Ha, A, E. cbn [negb orb].
    destruct (dividerStrokes_flat_map dims backgroundColor s offset 0 n) as [L' F'].
    eexists. split; [reflexivity|]. split.
    + rewrite length_app, L, L'. cbn [List.length]. lia.
    + apply Forall_app. split; assumption.
Qed.

Lemma dividerArcs_throws dims backgroundColor offset painted :
  Forall drawable painted -> painted <> [] ->
  arrayLength (dividerSize dims + 2)%num = None ->
  dividerArcs dims backgroundColor offset painted
  = Throw "RangeError: Invalid array length".
Proof.
  intros H N A. destruct H as [|s rest (Hc & Hs & Ha) _]; [contradiction|].
  cbn [dividerArcs]. rewrite Hc, Hs, Ha, A. reflexivity.
Qed.

Lemma dividerArcs_throw_only dims backgroundColor offset painted e :
  dividerArcs dims backgroundColor offset painted = Throw e ->
  arrayLength (dividerSize dims + 2)%num = None
  /\ e = "RangeError: Invalid array length"%string.
Proof.
  induction painted as [|s rest IH]; [discriminate|].
  cbn [dividerArcs].
  destruct (_ || _).
  - destruct (dividerArcs dims backgroundColor offset rest); [discriminate|].
    intros [= <-]. apply IH. reflexivity.
  - destruct (arrayLength _); [|intros [= <-]; auto].
    destruct (dividerArcs dims backgroundColor offset rest); [discriminate|].
    intros [= <-]. apply IH. reflexivity.
Qed.

(** [Array(k + 2)] for a whole number [k] that leaves room for it. *)
Lemma arrayLength_whole (k : nat) :
  (Z.of_nat k + 2 < 2 ^ 32)%Z ->
  arrayLength (num_of_nat k + 2)%num = Some (k + 2)%nat.
Proof.
  intros H. unfold num_of_nat. num_simpl. unfold arrayLength.
  assert (E : Qred (Qred (inject_Z (Z.of_nat k) + 2)) = inject_Z (Z.of_nat k + 2)).
  { rewrite Qcanon.Qred_involutive.
    transitivity (Qred (inject_Z (Z.of_nat k + 2))).
    - apply Qred_complete. rewrite inject_Z_plus. reflexivity.
    - apply Qcanon.Qred_iff. cbn. apply Z.gcd_1_r. }
  unfold Num.fin. cbv zeta. rewrite E. cbn [inject_Z Qden Qnum Pos.eqb andb].
  replace (0 <=? Z.of_nat k + 2)%Z with true by (symmetry; apply Z.leb_le; lia).
  replace (Z.of_nat k + 2 <? 2 ^ 32)%Z with true by (symmetry; apply Z.ltb_lt; lia).
  cbn [andb]. f_equal. lia.
Qed.

(** [Array(q + 2)] for a number [q] that is not whole. *)
Lemma arrayLength_fraction (q : Q) :
  (forall n : Z, ~ q == inject_Z n) ->
  arrayLength (Fin q + 2)%num = None.
Proof.
  intros H. num_simpl. unfold arrayLength, Num.fin. cbv zeta.
  assert (E : Qred (Qred (q + 2)) == q + 2)
    by (rewrite !Qred_correct; reflexivity).
  destruct (Qred (Qred (q + 2))) as [n d]. cbn [Qden Qnum].
  destruct (Pos.eqb_spec d 1) as [->|_]; [|reflexivity].
  exfalso. apply (H (n - 2)%Z).
  assert (E' : q == (n # 1) - 2).
  { revert E. generalize (n # 1). intros t E. lra. }
  rewrite E'. unfold Qeq, Qminus, Qplus, Qopp, inject_Z. cbn. lia.
Qed.

Lemma positive_whole (k : nat) :
  (0 < k)%nat -> (num_of_nat k >? 0)%num = true.
Proof.
  intros H. unfold Num.gtb, num_of_nat. cbn [Num.ltb]. apply Qltb_lt.
  unfold Qlt. cbn. lia.
Qed.

(** X13.  When [RoundDividers] is active on drawable painted sections
    (round caps, more than one painted section) and the divider size is a
    whole number [k] from 1 to 360, it draws [2 * (k + 2)] strokes for
    each painted section, each of them a flat stroke one degree wide. *)
Theorem RoundDividers_strokes dims painted backgroundColor (k : nat) :
  dividerSize dims = num_of_nat k ->
  (0 < k <= 360)%nat ->
  (1 < List.length painted)%nat ->
  Forall drawable painted ->
  exists arcs,
    RoundDividers dims painted backgroundColor true = Normal (Some arcs)
    /\ List.length arcs = (2 * (k + 2) * List.length painted)%nat
    /\ Forall dividerStroke arcs.
Proof.
  intros Ek Hk Hl Hd. unfold RoundDividers, roundDividersActive.
  replace (Nat.ltb 1 (List.length painted)) with true
    by (symmetry; apply Nat.ltb_lt; exact Hl).
  rewrite Ek, (positive_whole k) by lia. cbn [negb andb].
  assert (A : arrayLength (dividerSize dims + 2)%num = Some (k + 2)%nat).
  { rewrite Ek. apply arrayLength_whole. lia. }
  rewrite <- Ek.
  destruct (dividerArcs_drawn dims backgroundColor
              (Num.or_else (dividerSize dims) 0 * 2 + 6)%num painted (k + 2) Hd A)
    as (arcs & -> & L & F).
  exists arcs. auto.
Qed.

Lemma RoundDividers_strokes_witness :
  dividerSize (pieDimensions (Some (Fin 50)) (Some (Fin 25)) (Some (Fin 3)))
  = num_of_nat 3
  /\ (0 < 3 <= 360)%nat
  /\ (1 < List.length
           (snd (Sections (pieDimensions (Some (Fin 50)) (Some (Fin 25))
                                         (Some (Fin 3)))
                          [] (Some redBlueHalves) true (VStr "round"))))%nat
  /\ exists arcs,
      RoundDividers
        (pieDimensions (Some (Fin 50)) (Some (Fin 25)) (Some (Fin 3)))
        (snd (Sections (pieDimensions (Some (Fin 50)) (Some (Fin 25)) (Some (Fin 3)))
                       [] (Some redBlueHalves) true (VStr "round")))
        (VStr "#fff") true
      = Normal (Some arcs)
      /\ List.length arcs
         = (2 * (3 + 2)
            * List.length
                (snd (Sections (pieDimensions (Some (Fin 50)) (Some (Fin 25))
                                              (Some (Fin 3)))
                               [] (Some redBlueHalves) true (VStr "round"))))%nat
      /\ Forall dividerStroke arcs.
Proof.
  split; [reflexivity|]. split; [lia|]. split; [cbn; lia|].
  apply (RoundDividers_strokes
           (pieDimensions (Some (Fin 50)) (Some (Fin 25)) (Some (Fin 3)))
           (snd (Sections (pieDimensions (Some (Fin 50)) (Some (Fin 25)) (Some (Fin 3)))
                          [] (Some redBlueHalves) true (VStr "round")))
           (VStr "#fff") 3%nat).
  - reflexivity.
  - lia.
  - cbn. lia.
  - repeat constructor.
Defined.

(** The painted sections [Sections] leaves behind are drawable. *)
Lemma validSections_truthy sections :
  Forall (fun v => truthy (snd v) = true) (validSections sections).
Proof.
  induction sections as [|section rest IH]; [constructor|].
  cbn [validSections]. destruct (validSection section) as [[p c]|] eqn:E;
    [|exact IH].
  constructor; [|exact IH]. apply validSection_Some in E. apply E.
Qed.

Lemma sectionArcs_painted_drawable dims sd rd cap valid startValue painted :
  Forall drawable painted ->
  Forall positive (map fst valid) ->
  Forall (fun v => truthy (snd v) = true) valid ->
  (0 <=? startValue)%num = true ->
  Forall drawable (snd (sectionArcs dims sd rd cap valid startValue painted)).
Proof.
  intros Hp Hv Hc. revert startValue painted Hp.
  induction valid as [|[p c] rest IH]; intros startValue painted Hp Hs; [exact Hp|].
  cbn [map fst] in Hv. apply Forall_cons_iff in Hv. destruct Hv as [Hpos Hv].
  apply Forall_cons_iff in Hc. destruct Hc as [Hcol Hc]. cbn [snd] in Hcol.
  assert (Hs' : (0 <=? startValue + p)%num = true) by (apply nonneg_add; assumption).
  cbn [sectionArcs].
  destruct (getArcAngle p <? double_0_1)%num.
  - specialize (IH Hv Hc (startValue + p)%num painted Hp Hs').
    destruct (sectionArcs _ _ _ _ rest _ _). exact IH.
  - match goal with
    | |- context [sectionArcs _ _ _ _ rest ?s ?q] =>
        assert (Hq : Forall drawable q);
        [| specialize (IH Hv Hc s q Hq Hs'); destruct (sectionArcs _ _ _ _ rest s q);
           exact IH]
    end.
    destruct rd; [|exact Hp]. apply Forall_app. split; [exact Hp|].
    constructor; [|constructor]. repeat split; cbn.
    + exact Hcol.
    + apply nonneg_not_NaN, nonneg_degrees. exact Hs.
    + destruct (getArcAngle_fin p) as (w & -> & _). reflexivity.
Qed.

Lemma Sections_painted_drawable dims sections rd cap :
  Forall drawable (snd (Sections dims [] sections rd cap)).
Proof.
  unfold Sections. destruct sections as [entries|]; [|constructor].
  destruct (_ =? _)%nat; [constructor|].
  destruct (_ =? _)%nat; [constructor|].
  pose proof (sectionArcs_painted_drawable dims
                (shouldShowDivider (validSections entries) (dividerSize dims))
                rd cap (validSections entries) 0 []
                (Forall_nil _) (validSections_positive entries)
                (validSections_truthy entries) eq_refl) as H.
  destruct (sectionArcs _ _ _ _ _ _ _). exact H.
Qed.

(** The entries of the [sections] prop that are drawn. *)
Definition drawnSections (sections : option (list (option PieSection)))
  : list (num * value) :=
  match sections with
  | Some entries => drawnEntries (validSections entries)
  | None => []
  end.

Lemma Sections_painted_length dims sections cap :
  List.length (snd (Sections dims [] sections true cap))
  = List.length (drawnSections sections).
Proof.
  destruct (Sections_round_caps dims [] sections cap) as (new & E & M & _).
  rewrite E. cbn [app]. unfold drawnSections. rewrite <- M, length_map.
  reflexivity.
Qed.

Section PieErrors.

Variables Math_cos Math_sin : num -> num.

Lemma Pie_completion props :
  Pie Math_cos Math_sin props
  = let dims := pieDimensions (prop_radius props) (prop_innerRadius props)
                              (prop_dividerSize props) in
    let round := is_string (prop_strokeCap props) "round" in
    let cap := if round then VStr "round" else VStr "butt" in
    let sections := Sections dims [] (prop_sections props) round cap in
    match RoundDividers dims (snd sections) (prop_backgroundColor props) round with
    | Throw e => Throw e
    | Normal dividers =>
        Normal
          {| svg_width := (radius dims * 2)%num;
             svg_height := (radius dims * 2)%num;
             pie_background :=
               Background Math_cos Math_sin dims (prop_backgroundColor props);
             pie_sections :=
               option_map (map (ArcShape Math_cos Math_sin)) (fst sections);
             pie_dividers := option_map (map (ArcShape Math_cos Math_sin)) dividers;
             pie_cleanUp :=
               CleanUpCircles Math_cos Math_sin dims (prop_backgroundColor props)
                              round;
             pie_centerText :=
               if prop_showCenterText props then
                 Some ({| text_x := radius dims;
                          text_y := (radius dims - 5)%num;
                          text_content := prop_centerValue props |},
                       {| text_x := radius dims;
                          text_y := (radius dims + 15)%num;
                          text_content := prop_centerLabel props |})
               else None |}
    end.
Proof.
  unfold Pie. cbv zeta. destruct (Sections _ _ _ _ _). reflexivity.
Qed.

Lemma Pie_throw_only props e :
  Pie Math_cos Math_sin props = Throw e ->
  let dims := pieDimensions (prop_radius props) (prop_innerRadius props)
                            (prop_dividerSize props) in
  is_string (prop_strokeCap props) "round" = true
  /\ (dividerSize dims >? 0)%num = true
  /\ arrayLength (dividerSize dims + 2)%num = None.
Proof.
  rewrite Pie_completion. cbv zeta. unfold RoundDividers, roundDividersActive.
  destruct (is_string (prop_strokeCap props) "round");
    [|rewrite andb_false_r; discriminate].
  destruct (dividerSize _ >? 0)%num; [|rewrite andb_false_r; discriminate].
  destruct (negb _); [discriminate|].
  destruct (dividerArcs _ _ _ _) eqn:E; [discriminate|].
  intros _. apply dividerArcs_throw_only in E. repeat split. apply E.
Qed.

Lemma filter_length_le {A} (f g : A -> bool) (l : list A) :
  (forall a, f a = true -> g a = true) ->
  (List.length (filter f l) <= List.length (filter g l))%nat.
Proof.
  intros H. induction l as [|a l IH]; [apply Nat.le_refl|].
  cbn [filter]. destruct (f a) eqn:F.
  - rewrite (H a F). cbn [List.length]. lia.
  - destruct (g a); cbn [List.length]; lia.
Qed.

Lemma pieDimensions_positive_divider radiusProp innerRadiusProp (q : Q) :
  0 < q ->
  dividerSize (pieDimensions radiusProp innerRadiusProp (Some (Fin q))) = Fin q.
Proof.
  intros H. unfold pieDimensions, prop_or, Num.or_else.
  cbn [dividerSize Num.truthy].
  replace (Qeqb q 0) with false by (symmetry; apply Qeqb_neq; lra).
  cbn [negb]. num_simpl.
  replace (Qleb q 0) with false by (symmetry; apply Qleb_gt; exact H).
  reflexivity.
Qed.

(** X14.  A render with round caps throws the [RangeError] of [Array]
    when at least two entries pass the filter with a percentage of at
    least 0.0278 (so that two sections are drawn for sure) and the
    divider size is a positive number of at most 360 that is not whole
    and is a multiple of 2^-40 (so that [dividerSize + 2] is computed
    exactly, and is not whole either). *)
Theorem Pie_throws props entries (q : Q) (z : Z) :
  is_string (prop_strokeCap props) "round" = true ->
  prop_sections props = Some entries ->
  (2 <= List.length (filter (fun v => (278 # 10000 <=? fst v)%num)
                            (validSections entries)))%nat ->
  prop_dividerSize props = Some (Fin q) ->
  q == z # 1099511627776 ->
  0 < q <= 360 ->
  (forall n : Z, ~ q == inject_Z n) ->
  Pie Math_cos Math_sin props = Throw "RangeError: Invalid array length".
Proof.
  intros Hr Hs Hn Hd _ Hq Hw. rewrite Pie_completion. cbv zeta.
  rewrite Hr, Hs, Hd.
  set (dims := pieDimensions _ _ _).
  assert (Ed : dividerSize dims = Fin q).
  { apply pieDimensions_positive_divider. apply Hq. }
  pose proof (Sections_painted_drawable dims (Some entries) true (VStr "round")) as D.
  pose proof (Sections_painted_length dims (Some entries) (VStr "round")) as L.
  set (painted := snd (Sections dims [] (Some entries) true (VStr "round"))) in *.
  assert (Hl : (1 < List.length painted)%nat).
  { rewrite L. cbn [drawnSections]. unfold drawnEntries.
    pose proof (filter_length_le
                  (fun v : num * value => (278 # 10000 <=? fst v)%num)
                  (fun v => visibleSpan (getArcAngle (fst v)))
                  (validSections entries)) as Hle.
    specialize (Hle (fun v => proj1 visibleSpan_spanTest (fst v))). lia. }
  unfold RoundDividers, roundDividersActive.
  replace (Nat.ltb 1 (List.length painted)) with true
    by (symmetry; apply Nat.ltb_lt; exact Hl).
  rewrite Ed. unfold Num.gtb. cbn [Num.ltb].
  replace (Qltb 0 q) with true by (symmetry; apply Qltb_lt; apply Hq).
  cbn [negb andb]. rewrite <- Ed.
  rewrite dividerArcs_throws; try assumption; [reflexivity| |].
  - intros E. rewrite E in Hl. cbn in Hl. lia.
  - rewrite Ed. apply arrayLength_fraction. exact Hw.
Qed.

End PieErrors.

(** ** What a render draws *)

Lemma pieDimensions_whole_divider radiusProp innerRadiusProp (k : nat) :
  dividerSize (pieDimensions radiusProp innerRadiusProp (Some (num_of_nat k)))
  = num_of_nat k.
Proof.
  unfold pieDimensions, num_of_nat, prop_or, Num.or_else. cbn [dividerSize Num.truthy].
  destruct k as [|k]; [reflexivity|].
  assert (H : 0 < inject_Z (Z.of_nat (S k))).
  { unfold Qlt. cbn. lia. }
  replace (Qeqb (inject_Z (Z.of_nat (S k))) 0) with false
    by (symmetry; apply Qeqb_neq; lra).
  cbn [negb]. num_simpl.
  replace (Qleb (inject_Z (Z.of_nat (S k))) 0) with false
    by (symmetry; apply Qleb_gt; exact H).
  reflexivity.
Qed.

Section Drawing.

Variables Math_cos Math_sin : num -> num.

(** X15.  A render does not throw when the caps are flat, when no
    divider size is passed, or when the divider size is a whole number
    of at most 360, whatever the other props are. *)
Theorem Pie_renders props :
  is_string (prop_strokeCap props) "round" = false
  \/ prop_dividerSize props = None
  \/ (exists k : nat,
        prop_dividerSize props = Some (num_of_nat k) /\ (k <= 360)%nat) ->
  exists tree, Pie Math_cos Math_sin props = Normal tree.
Proof.
  intros H. destruct (Pie Math_cos Math_sin props) as [tree|e] eqn:E.
  { exists tree. reflexivity. }
  apply Pie_throw_only in E. cbv zeta in E. destruct E as (Hr & Hd & Ha).
  destruct H as [H|[H|(k & H & Hk)]].
  - rewrite H in Hr. discriminate.
  - rewrite H in Hd. discriminate.
  - rewrite H, pieDimensions_whole_divider, arrayLength_whole in Ha;
      [discriminate | lia].
Qed.

(** The element [ArcShape] returns on the dimensions of a render whose
    radius is not [Infinity]. *)
Lemma ArcShape_finite radiusProp innerRadiusProp dividerSizeProp arc :
  radiusProp <> Some PInf ->
  dimensions arc = pieDimensions radiusProp innerRadiusProp dividerSizeProp ->
  exists R r W : Q,
    radius (dimensions arc) = Fin R /\ width (dimensions arc) = Fin W
    /\ 10 <= R /\ 5 <= r /\ 1 <= W
    /\ ArcShape Math_cos Math_sin arc
       = Some {| d := describeArc Math_cos Math_sin (Fin R) (Fin R) (Fin r)
                                  (Num.or_else (startAngle arc) 0)
                                  (Num.or_else (arcAngle arc) 0);
                 stroke := or_else (color arc) (VStr "#000");
                 strokeWidth :=
                   Num.max (if isBezian arc
                            then (Num.or_else (arcAngle arc) 0 * 5)%num
                            else Fin W) 0;
                 strokeLinecap := or_else (strokeCap arc) (VStr "butt") |}.
Proof.
  intros HR E.
  destruct (pieDimensions_finite radiusProp innerRadiusProp dividerSizeProp HR)
    as (R & F & ER & EF & EW & HR10 & HF).
  destruct (strokeRadius_finite radiusProp innerRadiusProp dividerSizeProp HR)
    as (R' & F' & ER' & EF' & EV & H5).
  cbv zeta in ER', EF', EV. rewrite ER in ER'. rewrite EF in EF'.
  injection ER' as <-. injection EF' as <-.
  unfold ArcShape. rewrite E, ER in *.
  destruct (width _) as [| | |W]; try contradiction.
  cbn [Num.has_value] in EW.
  destruct (Fin R - Fin W / 2)%num as [| | |r] eqn:Er; try contradiction.
  cbn [Num.has_value] in EV.
  exists R, r, W. repeat split; try lra.
  cbn [Num.truthy Num.leb].
  replace (Qeqb R 0) with false by (symmetry; apply Qeqb_neq; lra).
  replace (Qleb R 0) with false by (symmetry; apply Qleb_gt; lra).
  replace (Qleb r 0) with false by (symmetry; apply Qleb_gt; lra).
  reflexivity.
Qed.

(** X16.  In every render whose radius is not [Infinity] the background
    is drawn as a closed circle of two arcs, stroked with the width of
    the ring, in the background color (black when there is none) and
    with flat caps. *)
Theorem Background_full_circle radiusProp innerRadiusProp dividerSizeProp backgroundColor :
  radiusProp <> Some PInf ->
  let dims := pieDimensions radiusProp innerRadiusProp dividerSizeProp in
  exists element,
    Background Math_cos Math_sin dims backgroundColor = Some element
    /\ arc_count (d element) = 2%nat
    /\ strokeWidth element = width dims
    /\ stroke element = or_else backgroundColor (VStr "#000")
    /\ strokeLinecap element = VStr "butt".
Proof.
  intros HR dims. unfold Background.
  destruct (ArcShape_finite radiusProp innerRadiusProp dividerSizeProp
              {| dimensions := dims; color := backgroundColor; strokeCap := VUndefined;
                 startAngle := 0; arcAngle := 360; isBezian := false |}
              HR eq_refl)
    as (R & r & W & ER & EW & HR10 & Hr & HW & ->).
  cbn [dimensions] in EW. eexists. split; [reflexivity|].
  cbn [d strokeWidth stroke strokeLinecap isBezian color strokeCap].
  repeat split.
  rewrite EW. num_simpl.
  replace (Qleb W 0) with false by (symmetry; apply Qleb_gt; lra).
  reflexivity.
Qed.

Lemma describeArc_draws cx cy r startAngle (span : Q) :
  Num.isNaN startAngle = false -> 0 < span ->
  arc_count (describeArc Math_cos Math_sin (Fin cx) (Fin cy) (Fin r) startAngle span)
  = 1%nat
  \/ arc_count (describeArc Math_cos Math_sin (Fin cx) (Fin cy) (Fin r) startAngle span)
     = 2%nat.
Proof.
  intros N H.
  assert (N5 : Num.isNaN cx || Num.isNaN cy || Num.isNaN r
               || Num.isNaN startAngle || Num.isNaN span = false).
  { cbn [Num.isNaN orb]. rewrite N. reflexivity. }
  destruct (Fin span >=? double_359_9)%num eqn:G.
  - right. rewrite (describeArc_full_circle _ _ _ _ _ _ _ N5 G). reflexivity.
  - left. rewrite (describeArc_single _ _ _ _ _ _ _ N5); [reflexivity | | exact G].
    cbn [Num.leb]. apply Qleb_gt. exact H.
Qed.

(** X17.  In a render whose radius is not [Infinity] every section
    element is drawn, and its path holds one arc, or the two arcs of a
    closed circle: no section of a render degenerates to the placeholder
    path. *)
Theorem Pie_section_paths props tree elements :
  prop_radius props <> Some PInf ->
  Pie Math_cos Math_sin props = Normal tree ->
  pie_sections tree = Some elements ->
  Forall (fun e => exists element,
                     e = Some element
                     /\ (arc_count (d element) = 1%nat
                         \/ arc_count (d element) = 2%nat))
         elements.
Proof.
  intros HR H E.
  destruct (Pie_normal Math_cos Math_sin props tree H) as (_ & ES & _).
  cbv zeta in ES. rewrite ES in E. clear ES.
  set (dims := pieDimensions (prop_radius props) (prop_innerRadius props)
                             (prop_dividerSize props)) in *.
  set (round := is_string (prop_strokeCap props) "round") in *.
  set (cap := if round then VStr "round" else VStr "butt") in *.
  destruct (prop_sections props) as [entries|]; [|discriminate].
  destruct (fst (Sections dims [] (Some entries) round cap)) as [arcs|] eqn:S;
    [|discriminate].
  injection E as <-.
  pose proof (Sections_dimensions _ _ _ _ _ _ S) as D.
  destruct (Sections_Some _ _ _ _ _ _ S) as [_ E].
  rewrite E in S. cbn [fst] in S. injection S as <-.
  pose proof (sectionArcs_angles dims
                (shouldShowDivider (validSections entries) (dividerSize dims))
                round cap (validSections entries) 0 []
                (shouldShowDivider_positive (validSections entries) _)
                (validSections_positive entries) eq_refl) as A.
  apply Forall_map. rewrite Forall_forall in *. intros arc Hin.
  destruct (A arc Hin) as (Hs & span & Ea & Hspan).
  destruct (ArcShape_finite (prop_radius props) (prop_innerRadius props)
              (prop_dividerSize props) arc HR (D arc Hin))
    as (R & r & W & _ & _ & _ & _ & _ & ->).
  eexists. split; [reflexivity|]. cbn [d].
  assert (EO : Num.or_else (Fin span) 0 = Fin span).
  { unfold Num.or_else. cbn [Num.truthy].
    replace (Qeqb span 0) with false by (symmetry; apply Qeqb_neq; lra).
    reflexivity. }
  rewrite Ea, EO. apply describeArc_draws; [|lra].
  unfold Num.or_else. destruct (Num.truthy (startAngle arc)); [|reflexivity].
  apply nonneg_not_NaN. exact Hs.
Qed.

(** X18.  When the cleanup circles are drawn in a render whose radius
    is not [Infinity], both are closed paths of two arcs around the
    centre, stroked in the background color with the width of the ring.
    The outer one has the radius [radius + width/2], which is at least
    10.  The inner one has the radius [innerRadius - width/2] cut off at
    0: it is a circle only when the inner radius is more than half the
    width, and a single point otherwise. *)
Theorem CleanUpCircles_full_circles radiusProp innerRadiusProp dividerSizeProp
    backgroundColor visible inner outer :
  radiusProp <> Some PInf ->
  let dims := pieDimensions radiusProp innerRadiusProp dividerSizeProp in
  let innerR := Num.max (innerRadius dims - width dims / 2) 0 in
  let outerR := (radius dims + width dims / 2)%num in
  CleanUpCircles Math_cos Math_sin dims backgroundColor visible = Some (inner, outer) ->
  d inner = circlePath Math_cos Math_sin (radius dims) (radius dims) innerR
  /\ d outer = circlePath Math_cos Math_sin (radius dims) (radius dims) outerR
  /\ (10 <=? outerR)%num = true
  /\ (innerR = 0 <-> (innerRadius dims <=? width dims / 2)%num = true)
  /\ stroke inner = backgroundColor /\ stroke outer = backgroundColor
  /\ strokeWidth inner = width dims /\ strokeWidth outer = width dims.
Proof.
  intros HR dims innerR outerR. unfold CleanUpCircles.
  destruct (pieDimensions_finite radiusProp innerRadiusProp dividerSizeProp HR)
    as (R & F & ER & EF & EW & HR10 & HF).
  fold dims in ER, EF, EW. subst innerR outerR. rewrite ER, EF.
  destruct (width dims) as [| | |W]; try contradiction.
  cbn [Num.has_value] in EW.
  destruct (_ || _); [discriminate|].
  intros [= <- <-]. cbn [d stroke strokeWidth].
  num_simpl. change (Qeqb 2 0) with false. cbv iota. num_simpl.
  split; [|split; [|split; [|split; [|repeat split]]]].
  - apply describeArc_circlePath; [|reflexivity].
    destruct (Qleb _ 0); reflexivity.
  - apply describeArc_circlePath; reflexivity.
  - apply Qleb_le. rewrite !Qred_correct, Qhalf, EW. lra.
  - destruct (Qleb (Qred (F - Qred (W / 2))) 0) eqn:L.
    + split; [intros _|reflexivity].
      apply Qleb_le in L. rewrite !Qred_correct in L.
      apply Qleb_le. rewrite Qred_correct. lra.
    + apply Qleb_gt in L. rewrite !Qred_correct in L. split.
      * intros E. exfalso.
        pose proof (f_equal (fun n => Num.has_value n 0) E) as E'.
        cbn [Num.has_value Num.fin] in E'.
        assert (Z0 : 0 == 0) by reflexivity. rewrite <- E' in Z0.
        rewrite !Qred_correct in Z0. lra.
      * intros H. apply Qleb_le in H. rewrite Qred_correct in H. lra.
Qed.

End Drawing.

Lemma Background_full_circle_witness :
  Some (Fin 50) <> Some PInf
  /\ exists element,
      Background approx_cos approx_sin ringDims (VStr "#eee") = Some element
      /\ arc_count (d element) = 2%nat
      /\ strokeWidth element = width ringDims
      /\ stroke element = or_else (VStr "#eee") (VStr "#000")
      /\ strokeLinecap element = VStr "butt".
Proof.
  split; [discriminate|].
  apply (Background_full_circle approx_cos approx_sin
           (Some (Fin 50)) (Some (Fin 25)) None (VStr "#eee")).
  discriminate.
Defined.

Lemma Pie_renders_witness :
  (is_string (prop_strokeCap
                (pieProps redBlueHalves (Some (Fin 50)) (Some (Fin 25)) "round"
                          (Some (num_of_nat 3)))) "round" = false
   \/ prop_dividerSize
        (pieProps redBlueHalves (Some (Fin 50)) (Some (Fin 25)) "round"
                  (Some (num_of_nat 3))) = None
   \/ (exists k : nat,
         prop_dividerSize
           (pieProps redBlueHalves (Some (Fin 50)) (Some (Fin 25)) "round"
                     (Some (num_of_nat 3)))
         = Some (num_of_nat k) /\ (k <= 360)%nat))
  /\ exists tree,
      Pie approx_cos approx_sin
          (pieProps redBlueHalves (Some (Fin 50)) (Some (Fin 25)) "round"
                    (Some (num_of_nat 3)))
      = Normal tree.
Proof.
  assert (H : is_string (prop_strokeCap
                (pieProps redBlueHalves (Some (Fin 50)) (Some (Fin 25)) "round"
                          (Some (num_of_nat 3)))) "round" = false
   \/ prop_dividerSize
        (pieProps redBlueHalves (Some (Fin 50)) (Some (Fin 25)) "round"
                  (Some (num_of_nat 3))) = None
   \/ (exists k : nat,
         prop_dividerSize
           (pieProps redBlueHalves (Some (Fin 50)) (Some (Fin 25)) "round"
                     (Some (num_of_nat 3)))
         = Some (num_of_nat k) /\ (k <= 360)%nat)).
  { right. right. exists 3%nat. split; [reflexivity | lia]. }
  split; [exact H|].
  apply (Pie_renders approx_cos approx_sin
           (pieProps redBlueHalves (Some (Fin 50)) (Some (Fin 25)) "round"
                     (Some (num_of_nat 3))) H).
Defined.

(** ** Runs on concrete props *)

(** Three sections of 25, 25 and 50 percent. *)
Definition threeSections : list (option PieSection) :=
  [ entry 25 "red"; entry 25 "blue"; entry 50 "green" ].

Lemma Sections_arcs_ascending_witness :
  fst (Sections dividedDims [] (Some threeSections) false (VStr "butt"))
  = Some [ flatArc dividedDims "red" 5 85; flatArc dividedDims "blue" 95 85;
           flatArc dividedDims "green" 185 175 ]
  /\ ascending [Fin 5; Fin 95; Fin 185].
Proof.
  split; [reflexivity|].
  apply (Sections_arcs_ascending dividedDims [] threeSections false (VStr "butt")
           [ flatArc dividedDims "red" 5 85; flatArc dividedDims "blue" 95 85;
             flatArc dividedDims "green" 185 175 ]).
  reflexivity.
Defined.

Lemma Pie_section_paths_witness :
  prop_radius (pieProps threeSections (Some (Fin 50)) (Some (Fin 25)) "butt" None)
  <> Some PInf
  /\ exists tree elements,
      Pie approx_cos approx_sin
          (pieProps threeSections (Some (Fin 50)) (Some (Fin 25)) "butt" None)
      = Normal tree
      /\ pie_sections tree = Some elements
      /\ Forall (fun e => exists element,
                            e = Some element
                            /\ (arc_count (d element) = 1%nat
                                \/ arc_count (d element) = 2%nat))
                elements.
Proof.
  split; [discriminate|].
  eexists. eexists. split; [vm_compute; reflexivity|]. split; [reflexivity|].
  apply (Pie_section_paths approx_cos approx_sin
           (pieProps threeSections (Some (Fin 50)) (Some (Fin 25)) "butt" None)
           _ _ ltac:(discriminate) ltac:(vm_compute; reflexivity) eq_refl).
Defined.

Lemma CleanUpCircles_full_circles_witness :
  Some (Fin 50) <> Some PInf
  /\ exists inner outer,
      CleanUpCircles approx_cos approx_sin ringDims (VStr "#fff") true
      = Some (inner, outer)
      /\ d inner = circlePath approx_cos approx_sin 50 50 (25 # 2)
      /\ d outer = circlePath approx_cos approx_sin 50 50 (125 # 2).
Proof.
  split; [discriminate|].
  eexists. eexists. split; [reflexivity|].
  pose proof (CleanUpCircles_full_circles approx_cos approx_sin
                (Some (Fin 50)) (Some (Fin 25)) None (VStr "#fff") true _ _
                ltac:(discriminate) eq_refl) as H.
  split; apply H.
Defined.

Lemma Pie_throws_witness :
  (2 <= List.length (filter (fun v => (278 # 10000 <=? fst v)%num)
                            (validSections redBlueHalves)))%nat
  /\ 5 # 2 == 2748779069440 # 1099511627776
  /\ 0 < 5 # 2 <= 360
  /\ (forall n : Z, ~ 5 # 2 == inject_Z n)
  /\ Pie approx_cos approx_sin
         (pieProps redBlueHalves (Some (Fin 50)) (Some (Fin 25)) "round"
                   (Some (Fin (5 # 2))))
     = Throw "RangeError: Invalid array length".
Proof.
  assert (H1 : (2 <= List.length (filter (fun v => (278 # 10000 <=? fst v)%num)
                                         (validSections redBlueHalves)))%nat)
    by (cbn; lia).
  assert (H2 : 5 # 2 == 2748779069440 # 1099511627776) by reflexivity.
  assert (H3 : 0 < 5 # 2 <= 360) by (split; [reflexivity | discriminate]).
  assert (H4 : forall n : Z, ~ 5 # 2 == inject_Z n).
  { intros n H. unfold Qeq in H. cbn in H. lia. }
  repeat (split; [assumption|]).
  apply (Pie_throws approx_cos approx_sin
           (pieProps redBlueHalves (Some (Fin 50)) (Some (Fin 25)) "round"
                     (Some (Fin (5 # 2))))
           redBlueHalves (5 # 2) 2748779069440
           eq_refl eq_refl H1 eq_refl H2 H3 H4).
Defined.

(** ** The divider strokes of a render *)

Lemma or_else_not_NaN (n : num) (q : Q) : Num.isNaN (Num.or_else n q) = false.
Proof.
  unfold Num.or_else. destruct n as [| | |a]; try reflexivity.
  destruct (Num.truthy a); reflexivity.
Qed.

Lemma dividerArcs_strokes dims backgroundColor offset painted arcs :
  dividerArcs dims backgroundColor offset painted = Normal arcs ->
  Forall dividerStroke arcs.
Proof.
  revert arcs. induction painted as [|s rest IH]; intros arcs.
  - intros [= <-]. constructor.
  - cbn [dividerArcs].
    destruct (dividerArcs dims backgroundColor offset rest) as [others|e].
    2:{ destruct (_ || _); [discriminate|]. destruct (arrayLength _); discriminate. }
    specialize (IH others eq_refl).
    destruct (_ || _).
    + intros [= <-]. exact IH.
    + destruct (arrayLength _) as [n|]; [|discriminate].
      intros [= <-]. apply Forall_app. split; [|exact IH].
      apply (dividerStrokes_flat_map dims backgroundColor s offset 0 n).
Qed.

Section DividerPaths.

Variables Math_cos Math_sin : num -> num.

(** X19.  In a render whose radius is not [Infinity] every stroke of
    the divider pass is drawn: a path of one arc, 5 units thick, with a
    flat cap. *)
Theorem Pie_divider_paths props tree elements :
  prop_radius props <> Some PInf ->
  Pie Math_cos Math_sin props = Normal tree ->
  pie_dividers tree = Some elements ->
  Forall (fun e => exists element,
                     e = Some element
                     /\ arc_count (d element) = 1%nat
                     /\ strokeWidth element = 5
                     /\ strokeLinecap element = VStr "butt")
         elements.
Proof.
  intros HR H E.
  destruct (Pie_normal Math_cos Math_sin props tree H)
    as (_ & _ & (dividers & ED & EP) & _).
  cbv zeta in ED, EP. rewrite EP in E. clear EP.
  destruct dividers as [arcs|]; [|discriminate]. injection E as <-.
  pose proof (RoundDividers_dimensions _ _ _ _ _ ED) as D.
  assert (S : Forall dividerStroke arcs).
  { unfold RoundDividers in ED. destruct (negb _); [discriminate|].
    destruct (dividerArcs _ _ _ _) eqn:A; [|discriminate].
    injection ED as <-. eapply dividerArcs_strokes. exact A. }
  apply Forall_map. rewrite Forall_forall in *. intros arc Hin.
  destruct (S arc Hin) as (Ea & Eb & Ec).
  destruct (ArcShape_finite Math_cos Math_sin (prop_radius props)
              (prop_innerRadius props) (prop_dividerSize props) arc HR (D arc Hin))
    as (R & r & W & _ & _ & _ & _ & _ & ->).
  eexists. split; [reflexivity|].
  cbn [d strokeWidth strokeLinecap]. rewrite Ea, Eb, Ec.
  change (Num.or_else 1 0) with (Fin 1). repeat split.
  rewrite describeArc_single; [reflexivity | | reflexivity | reflexivity].
  cbn [Num.isNaN orb]. rewrite or_else_not_NaN. reflexivity.
Qed.

End DividerPaths.

Lemma Pie_divider_paths_witness :
  prop_radius (pieProps redBlueHalves (Some (Fin 50)) (Some (Fin 25)) "round"
                        (Some (Fin 1)))
  <> Some PInf
  /\ exists tree elements,
      Pie approx_cos approx_sin
          (pieProps redBlueHalves (Some (Fin 50)) (Some (Fin 25)) "round"
                    (Some (Fin 1)))
      = Normal tree
      /\ pie_dividers tree = Some elements
      /\ List.length elements = 12%nat
      /\ Forall (fun e => exists element,
                            e = Some element
                            /\ arc_count (d element) = 1%nat
                            /\ strokeWidth element = 5
                            /\ strokeLinecap element = VStr "butt")
                elements.
Proof.
  split; [discriminate|].
  eexists. eexists. split; [vm_compute; reflexivity|]. split; [reflexivity|].
  split; [reflexivity|].
  apply (Pie_divider_paths approx_cos approx_sin
           (pieProps redBlueHalves (Some (Fin 50)) (Some (Fin 25)) "round"
                     (Some (Fin 1)))
           _ _ ltac:(discriminate) ltac:(vm_compute; reflexivity) eq_refl).
Defined.
